(** * Traffic analytics dashboard (st_app.py): resampling, decomposition
      guards, rolling aggregates, extremum marking, joins and winsorizing.

    Shallow embedding of the data pipeline of [st_app.py].

    Conventions of the model.
    - A pandas float cell is an [option Q]: [None] is NaN (missing), and
      [Some q] is a number.  Arithmetic is exact rational arithmetic.
    - Python integers are [Z]; [//] is [Z.div] and [%] is [Z.modulo]
      (both floor towards minus infinity for a positive divisor, as in
      Python).
    - A timestamp ([datetime64[ns]]) is a [Z]: nanoseconds since the epoch.
    - A [Series] on a resampled grid is the list of its cells, the position
      in the list standing for the bucket. *)

From Stdlib Require Import ZArith QArith Qabs Qround Qminmax List Sorted Permutation Lia Lqa Bool.
From stdpp Require Import gmap strings list fin_maps sorting.

Open Scope Z_scope.

(** ** Cells and series *)

Abbreviation cell := (option Q) (only parsing).
Abbreviation series := (list (option Q)) (only parsing).

(** [Series.dropna()]: the numbers of a series, in order. *)
Definition dropna (s : series) : list Q := omap id s.

(** ** Window sizing (lines 207 and 280-283) *)

Module Windows.

(** [def _odd(k): k = int(max(3, k)); return k if k % 2 == 1 else k + 1] *)
Definition _odd (k : Z) : Z :=
  let k := Z.max 3 k in
  if k mod 2 =? 1 then k else k + 1.

(** [seasonal_w = _odd(min(max(11, period), max(7, n // 8)))] *)
Definition seasonal_w (period n : Z) : Z :=
  _odd (Z.min (Z.max 11 period) (Z.max 7 (n / 8))).

(** [trend_w = _odd(min(max(35, period * 5), max(7, n // 2)))] *)
Definition trend_w (period n : Z) : Z :=
  _odd (Z.min (Z.max 35 (period * 5)) (Z.max 7 (n / 2))).

(** [def _win(n): return int(np.clip(max(3, n // 20), 3, 24))] *)
Definition _win (n : Z) : Z :=
  Z.min (Z.max (Z.max 3 (n / 20)) 3) 24.

End Windows.

(** ** Exact aggregates *)

Definition Qsum (l : list Q) : Q := fold_left Qplus l 0%Q.

Definition Qmean (l : list Q) : Q :=
  (Qsum l / inject_Z (Z.of_nat (length l)))%Q.

(** A stable insertion sort: [before x y] says that [x], met earlier than
    [y], may stay ahead of it. *)
Section StableSort.
Context {A : Type} (before : A → A → bool).

Fixpoint insert_sorted (x : A) (l : list A) : list A :=
  match l with
  | [] => [x]
  | y :: l' => if before x y then x :: y :: l' else y :: insert_sorted x l'
  end.

Definition stable_sort (l : list A) : list A := foldr insert_sorted [] l.
End StableSort.

(** ** Resampler (lines 200-204, 275, 536-539) *)

Module Resampler.

(** A record of [_df] after [_standardize_columns] that has a timestamp:
    the timestamp and the numeric fields the pipeline aggregates.  A row
    whose timestamp failed to parse (NaT) is in no grid: the month and year
    selections (lines 186, 196, 262, 274) and [dropna(subset=[dt_col])]
    (line 530) remove such rows, and the resample of line 537 bins only
    the rows with a timestamp.  The rows given to a resample below are the
    rows with a timestamp. *)
Record Row := mkRow {
  datetime : Z;
  traffic_volume : cell;
  average_speed : cell;
  incidents : cell
}.

(** [rule = 'H' if gran == "Hourly" else 'D'] *)
Inductive rule := H | D.

(** Width of a bucket in nanoseconds. *)
Definition freq (r : rule) : Z :=
  match r with
  | H => 3600 * 1000000000
  | D => 86400 * 1000000000
  end.

(** Buckets are left-closed, left-labelled and aligned on the epoch:
    the bucket of [t] is [t // freq]. *)
Definition bucket (r : rule) (t : Z) : Z := t / freq r.

(** [resample(rule).mean()] on one field: NaN are skipped, a bucket with
    no number is NaN. *)
Definition mean (s : series) : cell :=
  match dropna s with
  | [] => None
  | vs => Some (Qmean vs)
  end.

(** [resample(rule).sum()] on one field: NaN are skipped, and pandas'
    [min_count=0] default makes the sum of no number 0. *)
Definition sum (s : series) : cell := Some (Qsum (dropna s)).

Section Resample.
Context {R G : Type} (time : R → Z) (agg : list R → G).

(** [sort_index()] *)
Definition sort_index (rows : list R) : list R :=
  stable_sort (λ x y, time x <=? time y) rows.

(** [in_bucket r b x]: the record [x] falls in bucket [b]. *)
Definition in_bucket (r : rule) (b : Z) (x : R) : Prop :=
  bucket r (time x) = b.

#[global] Instance in_bucket_dec r b x : Decision (in_bucket r b x).
Proof. unfold in_bucket. apply _. Defined.

(** [.sort_index().resample(rule).agg(...)]: one grid point per bucket
    from the bucket of the first timestamp to the bucket of the last,
    labelled by the bucket start; an empty input gives an empty grid. *)
Definition resample (r : rule) (rows : list R) : list (Z * G) :=
  match sort_index rows with
  | [] => []
  | (first :: _) as sorted =>
      let lo := bucket r (time first) in
      let hi := bucket r (time (List.last sorted first)) in
      (λ b, (b * freq r, agg (filter (in_bucket r b) sorted)))
        <$> seqZ lo (hi - lo + 1)
  end.
End Resample.

(** Grid point of [ts] (line 201):
    [agg({'traffic_volume': 'mean', 'average_speed': 'mean'})]. *)
Record TsPoint := mkTs { ts_volume : cell; ts_speed : cell }.

Definition agg_ts (rows : list Row) : TsPoint :=
  {| ts_volume := mean (traffic_volume <$> rows);
     ts_speed := mean (average_speed <$> rows) |}.

Definition ts (r : rule) (df_f : list Row) : list (Z * TsPoint) :=
  resample datetime agg_ts r df_f.

(** Grid point of [base] (line 537):
    [agg({'traffic_volume': 'mean', 'average_speed': 'mean',
          'incidents': 'sum'})]. *)
Record BasePoint := mkBase {
  base_volume : cell; base_speed : cell; base_incidents : cell
}.

Definition agg_base (rows : list Row) : BasePoint :=
  {| base_volume := mean (traffic_volume <$> rows);
     base_speed := mean (average_speed <$> rows);
     base_incidents := sum (incidents <$> rows) |}.

Definition base (r : rule) (df : list Row) : list (Z * BasePoint) :=
  resample datetime agg_base r df.

(** The uploaded external table after [dropna(subset=[dt_col])]: a
    timestamp and the values of its [ncols] numeric columns. *)
Record ExtRow := mkExt { ext_time : Z; ext_values : list cell }.

(** [.resample(rule).mean()]: the mean of every column. *)
Definition agg_ext (ncols : nat) (rows : list ExtRow) : list cell :=
  (λ j, mean ((λ x, default None (ext_values x !! j)) <$> rows))
    <$> seq 0 ncols.

Definition ext_r (ncols : nat) (r : rule) (ext : list ExtRow)
  : list (Z * list cell) :=
  resample ext_time (agg_ext ncols) r ext.

(** [Series.ffill()]: a missing cell takes the last number before it. *)
Fixpoint ffill_from (prev : cell) (s : series) : series :=
  match s with
  | [] => []
  | c :: s' =>
      let c' := match c with Some _ => c | None => prev end in
      c' :: ffill_from c' s'
  end.

Definition ffill (s : series) : series := ffill_from None s.

(** [ts_hourly] (line 275):
    [df_my...['traffic_volume'].resample('H').mean().ffill()]. *)
Definition ts_hourly (df_my : list Row) : series :=
  ffill (snd <$> resample datetime (λ rows, mean (traffic_volume <$> rows))
                   H df_my).

(** [base.join(ext_r, how='inner')]: the rows of the left grid whose
    label also labels a row of the right grid, paired with it, in the
    order of the left grid. *)
Definition join_inner {A B : Type} (left : list (Z * A))
    (right : list (Z * B)) : list (Z * (A * B)) :=
  l ← left;
  (λ r, (l.1, (l.2, r.2))) <$> filter (λ r, r.1 = l.1) right.

End Resampler.

(** ** Rolling aggregates of the residual (lines 294-302) *)

Module Rolling.

(** The window ending at position [i]: the cells at positions
    [max(0, i - w + 1) .. i]. *)
Definition window (w i : nat) (s : series) : series :=
  let start := (i + 1 - w)%nat in
  take (i + 1 - start) (drop start s).

(** [s.rolling(w, min_periods=1).agg()]: one cell per position. *)
Definition rolling (w : nat) (agg : list Q → cell) (s : series) : series :=
  (λ i, agg (dropna (window w i s))) <$> seq 0 (length s).

(** With [min_periods=1] a window without a number gives NaN. *)
Definition roll_sum (vs : list Q) : cell :=
  match vs with [] => None | _ => Some (Qsum vs) end.

Definition roll_mean (vs : list Q) : cell :=
  match vs with [] => None | _ => Some (Qmean vs) end.

(** Sample variance (ddof = 1), NaN with fewer than two numbers. *)
Definition sample_var (vs : list Q) : cell :=
  match vs with
  | [] | [_] => None
  | _ =>
      let m := Qmean vs in
      Some (Qsum ((λ x, (x - m) * (x - m)) <$> vs)
            / inject_Z (Z.of_nat (length vs) - 1))%Q
  end.

(** [Series.abs()] *)
Definition abs (s : series) : series := (λ c : cell, Qabs <$> c) <$> s.

Section ResidRoll.
(** The square root of the standard deviation is the library's. *)
Variable sqrt : Q → Q.
(** Every other attribute of pandas' rolling object, called without
    arguments ([median], [max], [min], [var], [count], ...): the library's;
    [None] when the lookup or the call raises. *)
Variable rolling_attr : string → nat → series → option series.

Definition roll_std (vs : list Q) : cell := sqrt <$> sample_var vs.

(** [getattr(resid.rolling(roll_h, min_periods=1), roll_stat)()] *)
Definition getattr_rolling (roll_h : nat) (resid : series)
    (roll_stat : string) : option series :=
  if String.eqb roll_stat "mean" then Some (rolling roll_h roll_mean resid)
  else if String.eqb roll_stat "sum" then Some (rolling roll_h roll_sum resid)
  else if String.eqb roll_stat "std" then Some (rolling roll_h roll_std resid)
  else rolling_attr roll_stat roll_h resid.

(** [resid_roll] (lines 300-302). *)
Definition resid_roll (roll_stat : string) (roll_h : nat)
    (resid : series) : option series :=
  if String.eqb roll_stat "abs_sum"
  then Some (rolling roll_h roll_sum (abs resid))
  else getattr_rolling roll_h resid roll_stat.
End ResidRoll.

(** The claim's aggregate, in its own words: the sum of the absolute
    values of the numbers of a window, NaN when it has none. *)
Definition sum_of_abs (win : series) : cell :=
  match dropna win with
  | [] => None
  | vs => Some (Qsum (Qabs <$> vs))
  end.

(** The aggregate the claim rules out: the absolute value of the sum. *)
Definition abs_of_sum (win : series) : cell :=
  Qabs <$> roll_sum (dropna win).

End Rolling.

(** ** Extremum marking (lines 213-216) *)

Module Extremes.

(** The numbers of a series with their positions, in encounter order. *)
Fixpoint entries_from (i : nat) (s : series) : list (nat * Q) :=
  match s with
  | [] => []
  | Some v :: s' => (i, v) :: entries_from (S i) s'
  | None :: s' => entries_from (S i) s'
  end.

Definition entries (s : series) : list (nat * Q) := entries_from 0 s.

(** The positions of the missing cells of a series, in encounter order. *)
Fixpoint missing_from (i : nat) (s : series) : list nat :=
  match s with
  | [] => []
  | Some _ :: s' => missing_from (S i) s'
  | None :: s' => i :: missing_from (S i) s'
  end.

Definition missing (s : series) : list nat := missing_from 0 s.

(** A row of a selection: a position of the series and the cell there. *)
Definition number (e : nat * Q) : nat * cell := (e.1, Some e.2).
Definition nan (i : nat) : nat * cell := (i, None).

(** [s.nlargest(n)] ([keep='first']): the first [n] rows of the series
    ordered by decreasing value, equal values in encounter order, the
    missing cells last, in encounter order: a selection holds missing
    cells when [n] exceeds the count of numbers. *)
Definition nlargest (n : nat) (s : series) : list (nat * cell) :=
  take n ((number <$> stable_sort (λ a b, Qle_bool b.2 a.2) (entries s))
          ++ (nan <$> missing s)).

(** [s.nsmallest(n)] ([keep='first']). *)
Definition nsmallest (n : nat) (s : series) : list (nat * cell) :=
  take n ((number <$> stable_sort (λ a b, Qle_bool a.2 b.2) (entries s))
          ++ (nan <$> missing s)).

(** [def _mark(s, n)] *)
Definition _mark (s : series) (n : Z)
  : list (nat * cell) * list (nat * cell) :=
  if (n <=? 0) || bool_decide (dropna s = [])
  then ([], [])
  else (nlargest (Z.to_nat n) s, nsmallest (Z.to_nat n) s).

(** [a] ranks before [b] among the highs: a larger value, or the same
    value met earlier. *)
Definition ranks_high (a b : nat * Q) : Prop :=
  (b.2 < a.2)%Q ∨ (a.2 == b.2 ∧ (a.1 < b.1)%nat)%Q.

(** [a] ranks before [b] among the lows. *)
Definition ranks_low (a b : nat * Q) : Prop :=
  (a.2 < b.2)%Q ∨ (a.2 == b.2 ∧ (a.1 < b.1)%nat)%Q.

(** [picked] is the top [n] of [s] for the ranking [ranks]: it consists of
    entries of [s], has [n] of them (all of them when [s] has fewer), is
    listed in ranking order and every entry left out ranks after every
    entry picked. *)
Definition top_n (ranks : nat * Q → nat * Q → Prop) (n : nat)
    (s : series) (picked : list (nat * Q)) : Prop :=
  (∀ e, e ∈ picked → s !! e.1 = Some (Some e.2))
  ∧ NoDup picked.*1
  ∧ length picked = (n `min` length (dropna s))%nat
  ∧ StronglySorted ranks picked
  ∧ (∀ e i v, e ∈ picked → s !! i = Some (Some v) → (i, v) ∉ picked →
      ranks e (i, v)).

(** The spec's words: the marking returns the [n] largest and the [n]
    smallest values of the series with their positions, ties in encounter
    order. *)
Definition marks_top_n (s : series) (n : Z) : Prop :=
  ∃ highs lows : list (nat * Q),
    _mark s n = (number <$> highs, number <$> lows)
    ∧ top_n ranks_high (Z.to_nat n) s highs
    ∧ top_n ranks_low (Z.to_nat n) s lows.

End Extremes.

(** ** Decomposition engine (lines 260-290 and 355-358) *)

Module Decomposition.

(** [obs, trend, seas, resid] *)
Record DecompositionResult := mkDecomp {
  obs : series; trend : series; seas : series; resid : series
}.

(** What the branch leaves on the page: the decomposition handed to the
    charts, the exception a library call raised, or the message of
    [st.info]. *)
Inductive outcome :=
| Decomposed (res : DecompositionResult)
| Raised
| st_info (msg : string).

(** The engine ran: a library call was made. *)
Definition ran (o : outcome) : Prop :=
  match o with
  | Decomposed _ | Raised => True
  | st_info _ => False
  end.

Definition not_enough : string :=
  "Not enough hourly points in this month/year (need ≥ 48).".

Definition no_rows : string := "No rows for the selected month.".

Section Engine.
(** statsmodels' [STL(series, period, seasonal, trend, robust).fit()],
    giving [res.trend, res.seasonal, res.resid]; [None] when it raises. *)
Variable STL : series → Z → Z → Z → bool → option (series * series * series).
(** statsmodels' [seasonal_decompose(series, model='additive', period)];
    [None] when it raises (it does on a series with a missing value). *)
Variable seasonal_decompose : series → Z → option DecompositionResult.
(** pandas' [dt.year] of a timestamp. *)
Variable year : Z → Z.

(** Lines 276-290 and 355-356. *)
Definition decompose (algo : string) (ts_hourly : series) : outcome :=
  let n := Z.of_nat (length ts_hourly) in
  if 48 <=? n then
    let period := 24 in
    if String.prefix "STL" algo then
      let seasonal_w := Windows.seasonal_w period n in
      let trend_w := Windows.trend_w period n in
      match STL ts_hourly period seasonal_w trend_w true with
      | Some (trend, seas, resid) =>
          Decomposed (mkDecomp ts_hourly trend seas resid)
      | None => Raised
      end
    else
      match seasonal_decompose ts_hourly period with
      | Some dec => Decomposed dec
      | None => Raised
      end
  else st_info not_enough.

(** [years = sorted(df_m['datetime'].dt.year.dropna().unique().tolist())] *)
Definition years (df_m : list Resampler.Row) : list Z :=
  stable_sort Z.leb (remove_dups ((λ x, year (Resampler.datetime x)) <$> df_m)).

(** [df_my = df_m[df_m['datetime'].dt.year == decomp_year]] *)
Definition df_my (decomp_year : Z) (df_m : list Resampler.Row)
  : list Resampler.Row :=
  filter (λ x, year (Resampler.datetime x) = decomp_year) df_m.

(** Lines 262-277 and 355-358 on the rows [df_m] of the selected month,
    for the year [decomp_year] picked in the select box. *)
Definition decomposition (algo : string) (decomp_year : Z)
    (df_m : list Resampler.Row) : outcome :=
  if bool_decide (years df_m = []) then st_info no_rows
  else decompose algo (Resampler.ts_hourly (df_my decomp_year df_m)).
End Engine.

End Decomposition.

(** ** Winsorizing (lines 102-108) *)

Module Winsorize.

(** A column of a frame: floats, or objects (text) as [region_name]. *)
Inductive column :=
| NumCol (s : series)
| ObjCol (s : list string).

(** A frame maps column names to columns.  Frames are objects: the store
    maps references to frames, and two variables alias when they hold
    the same reference. *)
Abbreviation DataFrame := (gmap string column).
Abbreviation store := (gmap positive DataFrame).

Inductive exn := KeyError | TypeError | ValueError | ReferenceError.

(** Computations that read and update the store, and may raise. *)
Definition py (A : Type) : Type := store → exn + A * store.

Definition ret {A} (x : A) : py A := λ σ, inr (x, σ).

Definition raise {A} (e : exn) : py A := λ _, inl e.

Definition bind {A B} (m : py A) (k : A → py B) : py B :=
  λ σ, match m σ with
       | inl e => inl e
       | inr (x, σ') => k x σ'
       end.

Definition lift {A} (r : exn + A) : py A :=
  match r with inl e => raise e | inr x => ret x end.

Notation "x <- m ;; k" := (bind m (λ x, k))
  (at level 100, m at next level, right associativity).

(** [for c in cols: body(c)] *)
Fixpoint for_each (cols : list string) (body : string → py unit) : py unit :=
  match cols with
  | [] => ret tt
  | c :: cols' => _ <- body c ;; for_each cols' body
  end.

(** [frame.copy()]: a new object holding copies of the columns.  Column
    data are values of the model, so the copy shares nothing with the
    original. *)
Definition copy (frame : positive) : py positive :=
  λ σ, match σ !! frame with
       | None => inl ReferenceError
       | Some fr => let df := fresh (dom σ) in inr (df, <[df := fr]> σ)
       end.

(** [c in df.columns] *)
Definition has_column (df : positive) (c : string) : py bool :=
  λ σ, match σ !! df with
       | None => inl ReferenceError
       | Some fr => inr (bool_decide (is_Some (fr !! c)), σ)
       end.

(** [df[c]] *)
Definition getitem (df : positive) (c : string) : py column :=
  λ σ, match σ !! df with
       | None => inl ReferenceError
       | Some fr =>
           match fr !! c with
           | None => inl KeyError
           | Some col => inr (col, σ)
           end
       end.

(** [df[c] = col]: updates the object [df] refers to, in place. *)
Definition setitem (df : positive) (c : string) (col : column) : py unit :=
  λ σ, match σ !! df with
       | None => inl ReferenceError
       | Some fr => inr (tt, <[df := <[c := col]> fr]> σ)
       end.

(** One quantile of the sorted numbers [vs], by linear interpolation
    between the two closest ranks; NaN when there is no number. *)
Definition quantile_sorted (vs : list Q) (q : Q) : cell :=
  match vs with
  | [] => None
  | v0 :: _ =>
      let pos := (q * inject_Z (Z.of_nat (length vs) - 1))%Q in
      let i := Z.to_nat (Qfloor pos) in
      let frac := (pos - inject_Z (Qfloor pos))%Q in
      let a := nth i vs v0 in
      let b := nth (S i) vs a in
      Some (a + (b - a) * frac)%Q
  end.

Definition valid_q (q : Q) : bool := Qle_bool 0 q && Qle_bool q 1.

(** [col.quantile(q)] for a pair [q]: both levels must lie in [0, 1], and
    the column must be numeric. *)
Definition quantile (col : column) (q : Q * Q) : exn + cell * cell :=
  if valid_q q.1 && valid_q q.2 then
    match col with
    | ObjCol _ => inl TypeError
    | NumCol s =>
        let vs := stable_sort Qle_bool (dropna s) in
        inr (quantile_sorted vs q.1, quantile_sorted vs q.2)
    end
  else inl ValueError.

Definition clip_cell (lower upper : cell) (c : cell) : cell :=
  x ← c;
  let x := match lower with
           | Some l => if Qle_bool l x then x else l
           | None => x
           end in
  Some match upper with
       | Some u => if Qle_bool x u then x else u
       | None => x
       end.

(** [col.clip(lower, upper)]: NaN cells stay, a NaN bound does not clip,
    and two numeric bounds are put in order first. *)
Definition clip (col : column) (lower upper : cell) : exn + column :=
  match col with
  | ObjCol _ => inl TypeError
  | NumCol s =>
      let '(lower, upper) :=
        match lower, upper with
        | Some l, Some u => (Some (Qmin l u), Some (Qmax l u))
        | _, _ => (lower, upper)
        end in
      inr (NumCol (clip_cell lower upper <$> s))
  end.

(** The body of the loop, for the column name [c]. *)
Definition winsorize_column (df : positive) (q : Q * Q) (c : string)
  : py unit :=
  present <- has_column df c ;;
  if present : bool then
    col <- getitem df c ;;
    lo_hi <- lift (quantile col q) ;;
    col <- getitem df c ;;
    clipped <- lift (clip col lo_hi.1 lo_hi.2) ;;
    setitem df c clipped
  else ret tt.

(** [def winsorize(frame, cols, q=(0.01, 0.99))] *)
Definition winsorize (frame : positive) (cols : list string) (q : Q * Q)
  : py positive :=
  df <- copy frame ;;
  _ <- for_each cols (winsorize_column df q) ;;
  ret df.

Definition default_q : Q * Q := (1 # 100, 99 # 100)%Q.

(** What one pass of the loop body does to a numeric column. *)
Definition clip_to_quantiles (q : Q * Q) (s : series) : series :=
  let vs := stable_sort Qle_bool (dropna s) in
  let lo := quantile_sorted vs q.1 in
  let hi := quantile_sorted vs q.2 in
  match lo, hi with
  | Some l, Some u => clip_cell (Some (Qmin l u)) (Some (Qmax l u)) <$> s
  | _, _ => clip_cell lo hi <$> s
  end.

Definition is_numeric (col : column) : Prop :=
  match col with NumCol _ => True | ObjCol _ => False end.

Definition on_numeric (f : series → series) (col : column) : column :=
  match col with NumCol s => NumCol (f s) | ObjCol _ => col end.




(** How often the name [c] is listed in [cols]. *)
Definition listed (c : string) (cols : list string) : nat :=
  length (filter (λ c', c' = c) cols).

End Winsorize.

(** ** Moving averages of the time tab (lines 207-210) *)

Module Smoothing.

(** [w = _win(len(ts))] *)
Definition w (r : Resampler.rule) (df_f : list Resampler.Row) : nat :=
  Z.to_nat (Windows._win (Z.of_nat (length (Resampler.ts r df_f)))).

(** [ts['vol_ma'] = ts['traffic_volume'].rolling(w, min_periods=1).mean()] *)
Definition vol_ma (r : Resampler.rule) (df_f : list Resampler.Row) : series :=
  Rolling.rolling (w r df_f) Rolling.roll_mean
    ((λ tp, Resampler.ts_volume tp.2) <$> Resampler.ts r df_f).

(** [ts['spd_ma'] = ts['average_speed'].rolling(w, min_periods=1).mean()] *)
Definition spd_ma (r : Resampler.rule) (df_f : list Resampler.Row) : series :=
  Rolling.rolling (w r df_f) Rolling.roll_mean
    ((λ tp, Resampler.ts_speed tp.2) <$> Resampler.ts r df_f).

End Smoothing.

(** ** Derived time fields (lines 86-89 and 457) *)

Module TimeFields.

(** [df['datetime'].dt.hour] *)
Definition hour (t : Z) : Z := (t / (3600 * 1000000000)) mod 24.

(** [df['datetime'].dt.dayofweek]: Monday is 0; the epoch was a
    Thursday. *)
Definition dayofweek (t : Z) : Z := (t / (86400 * 1000000000) + 3) mod 7.

(** [df['dow'].isin([5, 6]).astype(int)] *)
Definition is_weekend (dow : Z) : Z :=
  if bool_decide (dow ∈ [5; 6]) then 1 else 0.

Definition weekend : string := "週末 (Weekend)".
Definition weekday : string := "工作日 (Weekday)".

(** [lambda x: '週末 (Weekend)' if x >= 5 else '工作日 (Weekday)'] *)
Definition day_type (x : Z) : string :=
  if 5 <=? x then weekend else weekday.

End TimeFields.

(** ** Month selection (lines 122-126, 185 and 261) *)

Module Months.

Definition month_names : list string :=
  ["January"; "February"; "March"; "April"; "May"; "June";
   "July"; "August"; "September"; "October"; "November"; "December"].

(** [list.index(x)]: the first position of [x], [None] for the
    [ValueError] of a value that is not in the list. *)
Fixpoint index (x : string) (l : list string) : option Z :=
  match l with
  | [] => None
  | y :: l' => if String.eqb y x then Some 0 else Z.succ <$> index x l'
  end.

(** [month_num = month_names.index(selected_month) + 1] *)
Definition month_num (selected_month : string) : option Z :=
  (λ i, i + 1) <$> index selected_month month_names.

End Months.

(** ** Coverage KPI (lines 164-168) *)

Module Kpi.

(** [_df['datetime'].max()] and [.min()] of a frame with rows. *)
Definition ts_max (t : Z) (ts : list Z) : Z := foldr Z.max t ts.
Definition ts_min (t : Z) (ts : list Z) : Z := foldr Z.min t ts.

(** [int((_df['datetime'].max() - _df['datetime'].min()).days) + 1];
    [None] stands for the dash shown when there is no timestamp. *)
Definition coverage_days (df : list Resampler.Row) : option Z :=
  match Resampler.datetime <$> df with
  | [] => None
  | t :: ts => Some ((ts_max t ts - ts_min t ts) / (86400 * 1000000000) + 1)
  end.

End Kpi.

(** ** Rolling window control (lines 294-295) *)

Module Controls.

(** [max_win = int(min(168, n))] *)
Definition max_win (n : Z) : Z := Z.min 168 n.

(** The slider's initial value, [min(24, max_win)]. *)
Definition roll_h_default (n : Z) : Z := Z.min 24 (max_win n).

End Controls.

(** ** Data quality guards (lines 143-148) *)

Module Guards.
Import Winsorize.

(** [s > limit] selects the numbers above the limit (NaN compares false);
    the selected cells become NaN. *)
Definition mask_above (limit : Z) (s : series) : series :=
  (λ c : cell,
     match c with
     | Some v => if Qle_bool v (inject_Z limit) then Some v else None
     | None => None
     end) <$> s.

(** [_df.loc[_df[c] > limit, c] = np.nan]: updates the object [_df]
    refers to, in place; comparing a text column with a number raises. *)
Definition loc_set_nan_above (_df : positive) (c : string) (limit : Z)
  : py unit :=
  col <- getitem _df c ;;
  match col with
  | NumCol s => setitem _df c (NumCol (mask_above limit s))
  | ObjCol _ => raise TypeError
  end.

(** [if c in _df.columns: _df.loc[_df[c] > limit, c] = np.nan] *)
Definition guard_column (_df : positive) (c : string) (limit : Z)
  : py unit :=
  present <- has_column _df c ;;
  if present : bool then loc_set_nan_above _df c limit else ret tt.

(** Lines 143-148: the two guards, then the optional winsorizing; the
    result is the reference [_df] is bound to afterwards. *)
Definition apply_guards (_df : positive) (max_speed max_volume : Z)
    (robust_view : bool) : py positive :=
  _ <- guard_column _df "average_speed" max_speed ;;
  _ <- guard_column _df "traffic_volume" max_volume ;;
  if robust_view
  then winsorize _df ["traffic_volume"; "average_speed"] default_q
  else ret _df.

(** Every number of the column is at most [limit]. *)
Definition bounded_above (limit : Q) (col : column) : Prop :=
  match col with
  | NumCol s => Forall (λ v, (v <= limit)%Q) (dropna s)
  | ObjCol _ => True
  end.

End Guards.

(** ** The spec's reading of empty buckets *)

(** No record of [df] falls in the bucket labelled [t]. *)
Definition empty_bucket (r : Resampler.rule) (df : list Resampler.Row)
    (t : Z) : Prop :=
  ∀ x, x ∈ df →
    Resampler.bucket r (Resampler.datetime x) * Resampler.freq r ≠ t.

(** The spec's words: on the base grid every bucket without a source point
    is missing in every aggregated field, the summed one included. *)
Definition empty_buckets_all_missing (r : Resampler.rule)
    (df : list Resampler.Row) : Prop :=
  ∀ t p, (t, p) ∈ Resampler.base r df → empty_bucket r df t →
    Resampler.base_volume p = None
    ∧ Resampler.base_speed p = None
    ∧ Resampler.base_incidents p = None.

(** [hours k]: the timestamp [k] hours after the epoch. *)
Definition hours (k : Z) : Z := k * 3600 * 1000000000.

(** * Theorems *)

(** C6: for every integer k, [_odd] is idempotent, its result is odd and at
    least 3, and it is k clamped to max(3, k), kept when odd and
    incremented otherwise. *)
Theorem odd_window_idempotent_odd_ge3 (k : Z) :
  Windows._odd (Windows._odd k) = Windows._odd k
  ∧ Z.odd (Windows._odd k) = true
  ∧ 3 ≤ Windows._odd k
  ∧ Windows._odd k
    = (if Z.odd (Z.max 3 k) then Z.max 3 k else Z.max 3 k + 1).
Proof.
  assert (Hodd : ∀ m, (m mod 2 =? 1) = Z.odd m).
  { intros m. rewrite Zodd_mod. reflexivity. }
  unfold Windows._odd; cbv zeta. rewrite -> !Hodd.
  destruct (Z.odd (Z.max 3 k)) eqn:Hk.
  - rewrite Z.max_r by lia. rewrite Hk. repeat split; try done; lia.
  - assert (Hs : Z.odd (Z.max 3 k + 1) = true).
    { rewrite Z.odd_add, Hk. reflexivity. }
    rewrite Z.max_r by lia. rewrite Hs. repeat split; try done; lia.
Qed.

(** C3: for 744 hourly points and period 24 the robust method's windows are
    both odd, the seasonal window is at most 93 = 744 // 8 and the trend
    window at most 372 = 744 // 2; they are the oddified clamps of the
    source. *)
Theorem stl_windows_744 :
  let sw := Windows.seasonal_w 24 744 in
  let tw := Windows.trend_w 24 744 in
  Z.odd sw = true ∧ Z.odd tw = true
  ∧ sw ≤ 744 / 8 ∧ 744 / 8 = 93
  ∧ tw ≤ 744 / 2 ∧ 744 / 2 = 372
  ∧ sw = Windows._odd (Z.min (Z.max 11 24) (Z.max 7 (744 / 8)))
  ∧ tw = Windows._odd (Z.min (Z.max 35 (24 * 5)) (Z.max 7 (744 / 2)))
  ∧ sw = 25 ∧ tw = 121.
Proof. cbv zeta. vm_compute. repeat split; discriminate. Qed.

(** ** Stable sorting *)

Section StableSortFacts.
Context {A : Type} (before : A → A → bool).

Lemma insert_sorted_perm (x : A) (l : list A) :
  insert_sorted before x l ≡ₚ x :: l.
Proof.
  induction l as [|y l IH]; simpl; [done|].
  destruct (before x y); [done|].
  rewrite IH. apply Permutation_swap.
Qed.

Lemma stable_sort_perm (l : list A) : stable_sort before l ≡ₚ l.
Proof.
  induction l as [|x l IH]; simpl; [done|].
  by rewrite insert_sorted_perm, IH.
Qed.

Lemma stable_sort_elem_of (l : list A) (x : A) :
  x ∈ stable_sort before l ↔ x ∈ l.
Proof. by rewrite stable_sort_perm. Qed.

Lemma stable_sort_length (l : list A) :
  length (stable_sort before l) = length l.
Proof. by rewrite stable_sort_perm. Qed.

(** Sorting a list in which every element is [earlier] than those after
    it orders it by any transitive ranking that [before] decides between
    an earlier and a later element. *)
Section Ranking.
Context (earlier ranks : A → A → Prop).
Hypothesis ranks_trans : ∀ a b c, ranks a b → ranks b c → ranks a c.
Hypothesis before_true :
  ∀ a b, before a b = true → earlier a b → ranks a b.
Hypothesis before_false : ∀ a b, before a b = false → ranks b a.

Lemma insert_sorted_ranked (x : A) (l : list A) :
  StronglySorted ranks l →
  Forall (earlier x) l →
  StronglySorted ranks (insert_sorted before x l).
Proof.
  induction 1 as [|y l Hl IH Hy]; intros Hx; simpl.
  - repeat constructor.
  - apply Forall_cons in Hx as [Hxy Hx].
    destruct (before x y) eqn:Hb.
    + constructor; [by constructor|].
      assert (ranks x y) by eauto.
      constructor; [done|].
      eapply Forall_impl; [exact Hy|]. eauto.
    + constructor; [by apply IH|].
      rewrite insert_sorted_perm. constructor; eauto.
Qed.

Lemma stable_sort_ranked (l : list A) :
  StronglySorted earlier l →
  StronglySorted ranks (stable_sort before l).
Proof.
  induction 1 as [|x l Hl IH Hx]; simpl; [constructor|].
  apply insert_sorted_ranked; [done|].
  by rewrite stable_sort_perm.
Qed.
End Ranking.
End StableSortFacts.

Lemma StronglySorted_trivial {A : Type} (l : list A) :
  StronglySorted (λ _ _, True) l.
Proof.
  induction l; constructor; [done|]. by apply Forall_forall.
Qed.

Lemma StronglySorted_last {A : Type} (R : A → A → Prop) (l : list A) (d x : A) :
  StronglySorted R l → x ∈ l → x = List.last l d ∨ R x (List.last l d).
Proof.
  induction 1 as [|y l Hl IH Hy]; intros Hx; [by apply elem_of_nil in Hx|].
  destruct l as [|z l]; simpl.
  - apply list_elem_of_singleton in Hx. by left.
  - apply elem_of_cons in Hx as [->|Hx]; [|by apply IH].
    right. rewrite Forall_forall in Hy. apply Hy.
    change (List.last (z :: l) d ∈ z :: l).
    clear. revert z. induction l as [|w l IH]; intros z; simpl.
    + by left.
    + right. apply IH.
Qed.

(** ** The resampler *)

Section ResampleFacts.
Import Resampler.
Context {R G : Type} (time : R → Z) (agg : list R → G).

Lemma freq_pos (r : rule) : 0 < freq r.
Proof. by destruct r. Qed.

Lemma label_inj (r : rule) (b b' : Z) : b * freq r = b' * freq r → b = b'.
Proof. pose proof (freq_pos r). nia. Qed.

Lemma sort_index_sorted (rows : list R) :
  StronglySorted (λ x y, time x ≤ time y) (sort_index time rows).
Proof.
  apply stable_sort_ranked with (earlier := λ _ _, True).
  - intros a b c. lia.
  - intros a b Hb _. by apply Z.leb_le.
  - intros a b Hb. apply Z.leb_gt in Hb. lia.
  - apply StronglySorted_trivial.
Qed.

Lemma resample_labels (r : rule) (rows : list R) :
  ∃ lo n, (resample time agg r rows).*1 = (λ b, b * freq r) <$> seqZ lo n.
Proof.
  unfold resample. destruct (sort_index time rows) as [|first rest].
  - by exists 0, 0.
  - eexists _, _. rewrite <-list_fmap_compose. reflexivity.
Qed.

Lemma resample_NoDup (r : rule) (rows : list R) :
  NoDup (resample time agg r rows).*1.
Proof.
  destruct (resample_labels r rows) as (lo & n & ->).
  apply NoDup_fmap_2; [|apply NoDup_seqZ].
  intros b b'. apply label_inj.
Qed.

Lemma resample_elem_of_inv (r : rule) (rows : list R) (t : Z) (g : G) :
  (t, g) ∈ resample time agg r rows →
  ∃ b, t = b * freq r
       ∧ g = agg (filter (in_bucket time r b) (sort_index time rows)).
Proof.
  unfold resample. destruct (sort_index time rows) as [|first rest].
  - intros Hin. by apply elem_of_nil in Hin.
  - intros (b & [= -> ->] & _)%list_elem_of_fmap. eauto.
Qed.

Lemma resample_elem_of_bucket (r : rule) (rows : list R) (x : R) :
  x ∈ rows →
  (bucket r (time x) * freq r,
   agg (filter (in_bucket time r (bucket r (time x))) (sort_index time rows)))
    ∈ resample time agg r rows.
Proof.
  intros Hx. apply (stable_sort_elem_of (λ x y, time x <=? time y)) in Hx.
  pose proof (sort_index_sorted rows) as Hs.
  unfold resample. fold (sort_index time rows) in Hx.
  destruct (sort_index time rows) as [|first rest] eqn:Hsort;
    [by apply elem_of_nil in Hx|].
  apply list_elem_of_fmap. eexists; split; [reflexivity|].
  apply elem_of_seqZ. pose proof (freq_pos r) as Hf. unfold bucket.
  assert (time first ≤ time x) as Hlo.
  { apply elem_of_cons in Hx as [->|Hx]; [lia|].
    apply StronglySorted_inv in Hs as [_ Hall].
    rewrite Forall_forall in Hall. by apply Hall. }
  assert (time x ≤ time (List.last (first :: rest) first)) as Hhi.
  { destruct (StronglySorted_last _ _ first x Hs Hx) as [<-|?]; lia. }
  pose proof (Z.div_le_mono _ _ (freq r) Hf Hlo).
  pose proof (Z.div_le_mono _ _ (freq r) Hf Hhi). lia.
Qed.

Lemma filter_sort_index (P : R → Prop) `{∀ x, Decision (P x)}
    (rows : list R) :
  filter P (sort_index time rows) ≡ₚ filter P rows.
Proof. unfold sort_index. by rewrite stable_sort_perm. Qed.
End ResampleFacts.

Lemma Qmean_singleton (v : Q) : Qmean [v] = v.
Proof.
  destruct v as [n d]. unfold Qmean, Qsum, Qdiv, Qmult, Qplus, Qinv; simpl.
  f_equal; lia.
Qed.

Lemma mean_singleton (c : option Q) : Resampler.mean [c] = c.
Proof.
  destruct c as [v|]; [|done].
  unfold Resampler.mean; simpl. by rewrite Qmean_singleton.
Qed.

Lemma single_point_bucket {G : Type} (agg : list Resampler.Row → G)
    (r : Resampler.rule) (df : list Resampler.Row) (x : Resampler.Row) :
  filter (λ y, Resampler.bucket r (Resampler.datetime y) * Resampler.freq r
               = Resampler.bucket r (Resampler.datetime x) * Resampler.freq r)
         df = [x] →
  ∀ g, (Resampler.bucket r (Resampler.datetime x) * Resampler.freq r, g)
         ∈ Resampler.resample Resampler.datetime agg r df
       ↔ g = agg [x].
Proof.
  intros Hone g.
  set (b := Resampler.bucket r (Resampler.datetime x)) in *.
  assert (filter (Resampler.in_bucket Resampler.datetime r b)
            (Resampler.sort_index Resampler.datetime df) = [x]) as Hsorted.
  { apply Permutation_singleton_r.
    rewrite filter_sort_index, <-Hone.
    erewrite list_filter_iff; [reflexivity|].
    intros y. unfold Resampler.in_bucket. split; [by intros ->|].
    apply label_inj. }
  assert (x ∈ df) as Hx.
  { eapply (list_elem_of_filter _ df x). rewrite Hone. by left. }
  split.
  - intros (b' & Hb & ->)%resample_elem_of_inv.
    apply label_inj in Hb as <-. by rewrite Hsorted.
  - intros ->. rewrite <-Hsorted.
    by apply resample_elem_of_bucket.
Qed.

Lemma ffill_from_missing (prev : option Q) (s : list (option Q)) (i : nat) :
  s !! S i = Some None →
  Resampler.ffill_from prev s !! S i = Resampler.ffill_from prev s !! i.
Proof.
  revert prev i. induction s as [|c s IH]; intros prev i Hi; [done|].
  simpl in *. destruct i as [|i].
  - destruct s as [|c' s]; simplify_eq/=. done.
  - by apply IH.
Qed.

(** ** Inner joins *)

Section JoinFacts.
Import Resampler.
Context {A B : Type}.
Implicit Types (left : list (Z * A)) (right : list (Z * B)).

Lemma join_inner_elem_of left right (t : Z) (a : A) (b : B) :
  (t, (a, b)) ∈ join_inner left right ↔ (t, a) ∈ left ∧ (t, b) ∈ right.
Proof.
  unfold join_inner. rewrite list_elem_of_bind. split.
  - intros ([t' a'] & Hin & Hl).
    apply list_elem_of_fmap in Hin as ([t'' b'] & [= -> -> ->] & Hr).
    apply list_elem_of_filter in Hr as [Heq Hr]. simpl in *. by subst.
  - intros [Hl Hr]. exists (t, a). split; [|done].
    apply list_elem_of_fmap. exists (t, b). split; [done|].
    by apply list_elem_of_filter.
Qed.

Lemma filter_key_length right (k : Z) :
  NoDup right.*1 →
  length (filter (λ r : Z * B, r.1 = k) right)
  = if decide (k ∈ right.*1) then 1%nat else 0%nat.
Proof.
  induction right as [|[k' b] right IH]; intros Hnd.
  - rewrite decide_False; [done|]. apply not_elem_of_nil.
  - rewrite fmap_cons in Hnd. apply NoDup_cons in Hnd as [Hk' Hnd].
    specialize (IH Hnd). rewrite filter_cons. simpl.
    destruct (decide (k' = k)) as [->|Hne].
    + rewrite decide_True by left. simpl.
      rewrite IH, decide_False; done.
    + rewrite IH. case_decide as Hk.
      * rewrite decide_True; [done|]. by right.
      * rewrite decide_False; [done|].
        intros [?|?]%elem_of_cons; simpl in *; [congruence|done].
Qed.

Lemma join_inner_keys left right :
  NoDup right.*1 →
  (join_inner left right).*1 = filter (λ t, t ∈ right.*1) left.*1.
Proof.
  intros Hnd. unfold join_inner.
  induction left as [|[k a] left IH]; [done|].
  rewrite bind_cons, fmap_app, IH, fmap_cons, filter_cons. simpl.
  pose proof (filter_key_length right k Hnd) as Hlen.
  destruct (filter (λ r : Z * B, r.1 = k) right) as [|x [|y l]];
    case_decide; simpl in *; done.
Qed.

Lemma join_inner_NoDup left right :
  NoDup left.*1 → NoDup right.*1 → NoDup (join_inner left right).*1.
Proof.
  intros Hl Hr. rewrite join_inner_keys by done. by apply NoDup_filter.
Qed.

Lemma join_inner_length_covered left right :
  NoDup left.*1 → NoDup right.*1 → right.*1 ⊆ left.*1 →
  length (join_inner left right) = length right.
Proof.
  intros Hl Hr Hsub.
  rewrite <-(length_fmap fst (join_inner left right)).
  rewrite <-(length_fmap fst right), join_inner_keys by done.
  apply Permutation_length, NoDup_Permutation; [by apply NoDup_filter|done|].
  intros t. rewrite list_elem_of_filter. split; [tauto|]. auto.
Qed.
End JoinFacts.

(** ** Rolling aggregates *)

Lemma dropna_abs (s : list (option Q)) :
  dropna (Rolling.abs s) = Qabs <$> dropna s.
Proof.
  unfold dropna, Rolling.abs.
  induction s as [|[v|] s IH]; csimpl; [done| |done]. by rewrite IH.
Qed.

Lemma abs_length (s : list (option Q)) :
  length (Rolling.abs s) = length s.
Proof. apply length_fmap. Qed.

Lemma window_abs (w i : nat) (s : list (option Q)) :
  Rolling.window w i (Rolling.abs s) = Rolling.abs (Rolling.window w i s).
Proof.
  unfold Rolling.window, Rolling.abs. cbv zeta.
  by rewrite fmap_take, fmap_drop.
Qed.

Lemma roll_sum_abs (w i : nat) (s : list (option Q)) :
  Rolling.roll_sum (dropna (Rolling.window w i (Rolling.abs s)))
  = Rolling.sum_of_abs (Rolling.window w i s).
Proof.
  rewrite window_abs, dropna_abs. unfold Rolling.sum_of_abs.
  by destruct (dropna (Rolling.window w i s)).
Qed.

(** C4: the [abs_sum] rolling aggregate is, at every position, the sum of
    the absolute values of the numbers of the window ending there; a window
    holding -5, 5, -3 gives 13, whereas the absolute value of its sum is
    3. *)
Theorem abs_sum_rolls_sum_of_abs (sqrt : Q → Q)
    (rolling_attr : string → nat → list (option Q)
                    → option (list (option Q)))
    (roll_h : nat) (resid : list (option Q)) :
  Rolling.resid_roll sqrt rolling_attr "abs_sum" roll_h resid
  = Some ((λ i, Rolling.sum_of_abs (Rolling.window roll_h i resid))
            <$> seq 0 (length resid))
  ∧ (∀ i, (i < length resid)%nat →
       Rolling.window roll_h i resid = [Some (-5); Some 5; Some (-3)]%Q →
       ∃ out, Rolling.resid_roll sqrt rolling_attr "abs_sum" roll_h resid = Some out
              ∧ out !! i = Some (Some 13%Q))
  ∧ Rolling.abs_of_sum [Some (-5); Some 5; Some (-3)]%Q = Some 3%Q.
Proof.
  assert (Rolling.resid_roll sqrt rolling_attr "abs_sum" roll_h resid
          = Some ((λ i, Rolling.sum_of_abs (Rolling.window roll_h i resid))
                    <$> seq 0 (length resid))) as Heq.
  { unfold Rolling.resid_roll.
    change (String.eqb "abs_sum" "abs_sum") with true. cbv iota. f_equal.
    unfold Rolling.rolling. rewrite abs_length.
    apply list_fmap_ext. intros _ i _. apply roll_sum_abs. }
  split; [exact Heq|]. split; [|reflexivity].
  intros i Hi Hwin. eexists. split; [exact Heq|].
  rewrite list_lookup_fmap, lookup_seq_lt by done. simpl.
  by rewrite Hwin.
Qed.

Lemma abs_sum_rolls_sum_of_abs_witness :
  ∃ out, Rolling.resid_roll (λ x, x) (λ _ _ _, None) "abs_sum" 3
           [Some 2; Some (-5); Some 5; Some (-3)]%Q = Some out
         ∧ out !! 3%nat = Some (Some 13%Q).
Proof.
  apply (proj1 (proj2 (abs_sum_rolls_sum_of_abs (λ x, x) (λ _ _ _, None) 3
           [Some 2; Some (-5); Some 5; Some (-3)]%Q)) 3%nat).
  - simpl. lia.
  - reflexivity.
Defined.

(** ** The decomposition guard *)

(** C2: the engine runs (calls the decomposition library) exactly on
    series of at least 2 * 24 = 48 points, so a decomposition is produced
    only for such series; a shorter one (40 points, say) gives no
    decomposition and no exception but the insufficient data message,
    which states the minimum of 48. *)
Theorem decompose_requires_48
    (STL : list (option Q) → Z → Z → Z → bool
           → option (list (option Q) * list (option Q) * list (option Q)))
    (seasonal_decompose : list (option Q) → Z
                          → option Decomposition.DecompositionResult)
    (algo : string) (ts_hourly : list (option Q)) :
  (Z.of_nat (length ts_hourly) < 2 * 24
   ↔ Decomposition.decompose STL seasonal_decompose algo ts_hourly
     = Decomposition.st_info Decomposition.not_enough)
  ∧ (2 * 24 ≤ Z.of_nat (length ts_hourly)
     ↔ Decomposition.ran
         (Decomposition.decompose STL seasonal_decompose algo ts_hourly))
  ∧ (∀ res, Decomposition.decompose STL seasonal_decompose algo ts_hourly
            = Decomposition.Decomposed res →
     2 * 24 ≤ Z.of_nat (length ts_hourly))
  ∧ is_Some (String.index 0 "48" Decomposition.not_enough).
Proof.
  unfold Decomposition.decompose. cbv zeta.
  destruct (Z.leb_spec 48 (Z.of_nat (length ts_hourly))) as [Hn|Hn].
  - assert (Decomposition.ran
              (if String.prefix "STL" algo
               then match STL ts_hourly 24
                            (Windows.seasonal_w 24
                               (Z.of_nat (length ts_hourly)))
                            (Windows.trend_w 24
                               (Z.of_nat (length ts_hourly))) true with
                    | Some (trend, seas, resid) =>
                        Decomposition.Decomposed
                          (Decomposition.mkDecomp ts_hourly trend seas resid)
                    | None => Decomposition.Raised
                    end
               else match seasonal_decompose ts_hourly 24 with
                    | Some dec => Decomposition.Decomposed dec
                    | None => Decomposition.Raised
                    end)) as Hran.
    { destruct (String.prefix "STL" algo).
      - by destruct (STL _ _ _ _ _) as [[[??]?]|].
      - by destruct (seasonal_decompose _ _). }
    split; [|split; [|split; [lia|by eexists]]].
    + split; [lia|]. intros Heq. rewrite Heq in Hran. done.
    + split; [done|lia].
  - split; [done|]. split; [|split; [done|by eexists]].
    split; [lia|done].
Qed.

Lemma decompose_requires_48_witness :
  Decomposition.decompose
    (λ s _ _ _ _, Some (s, s, s))
    (λ s _, Some (Decomposition.mkDecomp s s s s))
    "STL (robust)" (replicate 40 (Some 1%Q))
  = Decomposition.st_info Decomposition.not_enough.
Proof.
  apply (proj1 (proj1 (decompose_requires_48
           (λ s _ _ _ _, Some (s, s, s))
           (λ s _, Some (Decomposition.mkDecomp s s s s))
           "STL (robust)" (replicate 40 (Some 1%Q))))).
  vm_compute. reflexivity.
Defined.

(** ** Empty buckets *)

(** C5, as the spec words it, fails: with one record in hour 0 and one in
    hour 2, the bucket of hour 1 is empty and its incident sum is 0, not
    missing. *)
Lemma empty_buckets_all_missing_fails :
  ¬ empty_buckets_all_missing Resampler.H
      [Resampler.mkRow (hours 0) (Some 10%Q) (Some 50%Q) (Some 1%Q);
       Resampler.mkRow (hours 2) (Some 30%Q) (Some 40%Q) (Some 2%Q)].
Proof.
  intros Hclaim.
  destruct (Hclaim (hours 1) (Resampler.mkBase None None (Some 0%Q)))
    as (_ & _ & Hinc).
  - vm_compute. right. left.
  - intros x Hx. repeat (apply elem_of_cons in Hx as [->|Hx]);
      [vm_compute; discriminate..|by apply elem_of_nil in Hx].
  - discriminate Hinc.
Qed.

(** C5, amended: a bucket of the grid without a source point is missing in
    every field aggregated with mean and is 0 in the field aggregated with
    sum (the incident count); the forward fill of the decomposition input
    gives a missing hourly mean the value of the bucket before it. *)
Theorem empty_bucket_mean_missing_sum_zero (r : Resampler.rule)
    (df : list Resampler.Row) (t : Z) :
  empty_bucket r df t →
  (∀ p, (t, p) ∈ Resampler.base r df →
     Resampler.base_volume p = None ∧ Resampler.base_speed p = None
     ∧ Resampler.base_incidents p = Some 0%Q)
  ∧ (∀ p, (t, p) ∈ Resampler.ts r df →
     Resampler.ts_volume p = None ∧ Resampler.ts_speed p = None)
  ∧ (∀ i,
     (Resampler.resample Resampler.datetime
        (λ rows, Resampler.mean (Resampler.traffic_volume <$> rows))
        Resampler.H df).*2 !! S i = Some None →
     Resampler.ts_hourly df !! S i = Resampler.ts_hourly df !! i).
Proof.
  intros Hempty.
  assert (∀ b, t = b * Resampler.freq r →
    filter (Resampler.in_bucket Resampler.datetime r b)
      (Resampler.sort_index Resampler.datetime df) = []) as Hnil.
  { intros b ->. apply elem_of_nil_inv.
    intros x [Hb Hx]%list_elem_of_filter.
    apply stable_sort_elem_of in Hx. apply (Hempty x Hx). by rewrite Hb. }
  split; [|split].
  - intros p (b & Hb & ->)%resample_elem_of_inv. by rewrite (Hnil b Hb).
  - intros p (b & Hb & ->)%resample_elem_of_inv. by rewrite (Hnil b Hb).
  - intros i Hi. by apply ffill_from_missing.
Qed.

Lemma empty_bucket_mean_missing_sum_zero_witness :
  ∃ p, (hours 1, p) ∈ Resampler.base Resampler.H
         [Resampler.mkRow (hours 0) (Some 10%Q) (Some 50%Q) (Some 1%Q);
          Resampler.mkRow (hours 2) (Some 30%Q) (Some 40%Q) (Some 2%Q)]
       ∧ Resampler.base_volume p = None ∧ Resampler.base_speed p = None
       ∧ Resampler.base_incidents p = Some 0%Q.
Proof.
  exists (Resampler.mkBase None None (Some 0%Q)).
  assert ((hours 1, Resampler.mkBase None None (Some 0%Q))
          ∈ Resampler.base Resampler.H
              [Resampler.mkRow (hours 0) (Some 10%Q) (Some 50%Q) (Some 1%Q);
               Resampler.mkRow (hours 2) (Some 30%Q) (Some 40%Q) (Some 2%Q)])
    as Hin.
  { vm_compute. right. left. }
  split; [exact Hin|].
  refine (proj1 (empty_bucket_mean_missing_sum_zero Resampler.H
    [Resampler.mkRow (hours 0) (Some 10%Q) (Some 50%Q) (Some 1%Q);
     Resampler.mkRow (hours 2) (Some 30%Q) (Some 40%Q) (Some 2%Q)]
    (hours 1) _) _ Hin).
  intros x Hx. repeat (apply elem_of_cons in Hx as [->|Hx]);
    [vm_compute; discriminate..|by apply elem_of_nil in Hx].
Defined.

(** ** One source point per bucket *)

(** C9: when every bucket of the grid holds exactly one source point, the
    grid point of each source point's bucket carries exactly that point's
    values under the mean aggregator. *)
Theorem resample_mean_single_point (r : Resampler.rule)
    (df : list Resampler.Row) :
  (∀ t, t ∈ (Resampler.ts r df).*1 →
     ∃ x, filter (λ y, Resampler.bucket r (Resampler.datetime y)
                       * Resampler.freq r = t) df = [x]) →
  ∀ x, x ∈ df →
    ∀ p, (Resampler.bucket r (Resampler.datetime x) * Resampler.freq r, p)
           ∈ Resampler.ts r df
         ↔ p = Resampler.mkTs (Resampler.traffic_volume x)
                 (Resampler.average_speed x).
Proof.
  intros Hone x Hx p.
  destruct (Hone (Resampler.bucket r (Resampler.datetime x)
                  * Resampler.freq r)) as [x' Hx'].
  { apply list_elem_of_fmap. eexists (_, _). split; [reflexivity|].
    by apply resample_elem_of_bucket. }
  assert (x' = x) as ->.
  { assert (x ∈ [x']) as Hin; [|by apply list_elem_of_singleton in Hin].
    rewrite <-Hx'. by apply list_elem_of_filter. }
  unfold Resampler.ts. rewrite (single_point_bucket _ r df x Hx').
  unfold Resampler.agg_ts. simpl. by rewrite !mean_singleton.
Qed.

Lemma resample_mean_single_point_witness :
  (Resampler.bucket Resampler.H (hours 1 + 7) * Resampler.freq Resampler.H,
   Resampler.mkTs (Some (7 # 2)) None)
    ∈ Resampler.ts Resampler.H
        [Resampler.mkRow (hours 1 + 7) (Some (7 # 2)) None (Some 1%Q);
         Resampler.mkRow (hours 0 + 9) (Some 10%Q) (Some 50%Q) None].
Proof.
  refine (proj2 (resample_mean_single_point Resampler.H
    [Resampler.mkRow (hours 1 + 7) (Some (7 # 2)) None (Some 1%Q);
     Resampler.mkRow (hours 0 + 9) (Some 10%Q) (Some 50%Q) None] _
    (Resampler.mkRow (hours 1 + 7) (Some (7 # 2)) None (Some 1%Q)) _
    (Resampler.mkTs (Some (7 # 2)) None)) eq_refl).
  - intros t Ht. vm_compute in Ht.
    repeat (apply elem_of_cons in Ht as [->|Ht]);
      [eexists; vm_compute; reflexivity..|by apply elem_of_nil in Ht].
  - left.
Defined.

(** ** Joining the base grid with the external grid *)

(** C8: the inner join of the resampled base grid with the resampled
    external grid has exactly one row for each bucket present in both
    grids, carrying the two grids' rows, and no other row; a base grid of
    100 buckets joined with an external grid of 60 buckets, all among the
    base's, has exactly 60 rows. *)
Theorem join_inner_common_buckets (r : Resampler.rule)
    (df : list Resampler.Row) (ncols : nat) (ext : list Resampler.ExtRow) :
  NoDup (Resampler.join_inner (Resampler.base r df)
           (Resampler.ext_r ncols r ext)).*1
  ∧ (∀ t, t ∈ (Resampler.join_inner (Resampler.base r df)
                 (Resampler.ext_r ncols r ext)).*1
          ↔ t ∈ (Resampler.base r df).*1
            ∧ t ∈ (Resampler.ext_r ncols r ext).*1)
  ∧ (∀ t p v, (t, (p, v)) ∈ Resampler.join_inner (Resampler.base r df)
                              (Resampler.ext_r ncols r ext)
              ↔ (t, p) ∈ Resampler.base r df
                ∧ (t, v) ∈ Resampler.ext_r ncols r ext)
  ∧ (length (Resampler.base r df) = 100%nat →
     length (Resampler.ext_r ncols r ext) = 60%nat →
     (Resampler.ext_r ncols r ext).*1 ⊆ (Resampler.base r df).*1 →
     length (Resampler.join_inner (Resampler.base r df)
               (Resampler.ext_r ncols r ext)) = 60%nat).
Proof.
  pose proof (resample_NoDup Resampler.datetime Resampler.agg_base r df)
    as Hb.
  pose proof (resample_NoDup Resampler.ext_time (Resampler.agg_ext ncols)
                r ext) as He.
  fold (Resampler.base r df) in Hb. fold (Resampler.ext_r ncols r ext) in He.
  split; [by apply join_inner_NoDup|].
  split; [|split].
  - intros t. rewrite join_inner_keys, list_elem_of_filter by done. tauto.
  - intros t p v. apply join_inner_elem_of.
  - intros _ Hlen Hsub. by rewrite join_inner_length_covered.
Qed.

Lemma join_inner_common_buckets_witness :
  length (Resampler.join_inner
            (Resampler.base Resampler.H
               [Resampler.mkRow (hours 0) (Some 10%Q) (Some 50%Q) (Some 1%Q);
                Resampler.mkRow (hours 99) (Some 30%Q) (Some 40%Q) (Some 2%Q)])
            (Resampler.ext_r 1 Resampler.H
               [Resampler.mkExt (hours 20) [Some 3%Q];
                Resampler.mkExt (hours 79) [Some 4%Q]])) = 60%nat.
Proof.
  apply (proj2 (proj2 (proj2 (join_inner_common_buckets Resampler.H
    [Resampler.mkRow (hours 0) (Some 10%Q) (Some 50%Q) (Some 1%Q);
     Resampler.mkRow (hours 99) (Some 30%Q) (Some 40%Q) (Some 2%Q)] 1
    [Resampler.mkExt (hours 20) [Some 3%Q];
     Resampler.mkExt (hours 79) [Some 4%Q]])))).
  - vm_compute. reflexivity.
  - vm_compute. reflexivity.
  - apply (bool_decide_unpack _). vm_compute. exact I.
Defined.

(** ** Extremum marking *)

Section ExtremesFacts.
Import Extremes.

Lemma entries_from_elem_of (i : nat) (s : list (option Q)) (e : nat * Q) :
  e ∈ entries_from i s
  ↔ ∃ j, e.1 = (i + j)%nat ∧ s !! j = Some (Some e.2).
Proof.
  revert i. induction s as [|[v|] s IH]; intros i; simpl.
  - split; [by intros ?%elem_of_nil|by intros (j & _ & ?)].
  - rewrite elem_of_cons, IH. split.
    + intros [->|(j & Hj & Hs)]; [exists 0%nat|exists (S j)]; simpl;
        (split; [lia|done]).
    + intros ([|j] & Hj & Hs); simpl in *.
      * left. destruct e as [k w]; simpl in *. simplify_eq.
        f_equal. lia.
      * right. exists j. split; [lia|done].
  - rewrite IH. split.
    + intros (j & Hj & Hs). exists (S j). split; [lia|done].
    + intros ([|j] & Hj & Hs); simpl in *; [done|].
      exists j. split; [lia|done].
Qed.

Lemma entries_elem_of (s : list (option Q)) (i : nat) (v : Q) :
  (i, v) ∈ entries s ↔ s !! i = Some (Some v).
Proof.
  unfold entries. rewrite entries_from_elem_of. simpl. split.
  - by intros (j & -> & ?).
  - intros ?. by exists i.
Qed.

Lemma entries_from_increasing (i : nat) (s : list (option Q)) :
  StronglySorted (λ a b : nat * Q, (a.1 < b.1)%nat) (entries_from i s).
Proof.
  revert i. induction s as [|[v|] s IH]; intros i; simpl;
    [constructor| |apply IH].
  constructor; [apply IH|]. apply Forall_forall.
  intros e (j & -> & _)%entries_from_elem_of. simpl. lia.
Qed.

Lemma entries_from_NoDup (i : nat) (s : list (option Q)) :
  NoDup (entries_from i s).*1.
Proof.
  revert i. induction s as [|[v|] s IH]; intros i; csimpl;
    [constructor| |apply IH].
  constructor; [|apply IH].
  intros (e & He & (j & Hj & _)%entries_from_elem_of)%list_elem_of_fmap.
  simpl in He. lia.
Qed.

Lemma entries_from_length (i : nat) (s : list (option Q)) :
  length (entries_from i s) = length (dropna s).
Proof.
  revert i. unfold dropna.
  induction s as [|[v|] s IH]; intros i; csimpl; [done| |apply IH].
  by rewrite IH.
Qed.

Lemma ranks_high_trans (a b c : nat * Q) :
  ranks_high a b → ranks_high b c → ranks_high a c.
Proof.
  unfold ranks_high. intros [Hab|[Hab Hab']] [Hbc|[Hbc Hbc']].
  - left. by etransitivity.
  - left. by rewrite <-Hbc.
  - left. by rewrite Hab.
  - right. split; [by rewrite Hab|lia].
Qed.

Lemma ranks_low_trans (a b c : nat * Q) :
  ranks_low a b → ranks_low b c → ranks_low a c.
Proof.
  unfold ranks_low. intros [Hab|[Hab Hab']] [Hbc|[Hbc Hbc']].
  - left. by etransitivity.
  - left. by rewrite <-Hbc.
  - left. by rewrite Hab.
  - right. split; [by rewrite Hab|lia].
Qed.

Lemma Qle_bool_false (x y : Q) : Qle_bool x y = false → (y < x)%Q.
Proof.
  intros Hb. apply Qnot_le_lt. intros Hle.
  apply Qle_bool_iff in Hle. congruence.
Qed.

(** The first [n] entries of a stable sort form the top [n] for any
    ranking the sort's comparison decides. *)
Lemma take_stable_sort_top_n (before : nat * Q → nat * Q → bool)
    (ranks : nat * Q → nat * Q → Prop) (n : nat) (s : list (option Q)) :
  (∀ a b c, ranks a b → ranks b c → ranks a c) →
  (∀ a b, before a b = true → (a.1 < b.1)%nat → ranks a b) →
  (∀ a b, before a b = false → ranks b a) →
  top_n ranks n s (take n (stable_sort before (entries s))).
Proof.
  intros Htrans Htrue Hfalse.
  pose proof (stable_sort_ranked before _ ranks Htrans Htrue Hfalse
                (entries s) (entries_from_increasing 0 s)) as Hsorted.
  set (sorted := stable_sort before (entries s)) in *.
  assert (∀ e, e ∈ sorted ↔ s !! e.1 = Some (Some e.2)) as Hin.
  { intros [i v]. unfold sorted.
    by rewrite stable_sort_elem_of, entries_elem_of. }
  rewrite <-(take_drop n sorted) in Hsorted.
  repeat split.
  - intros e He. apply Hin. by eapply subseteq_take.
  - apply (sublist_NoDup _ sorted.*1).
    + unfold sorted. rewrite stable_sort_perm. apply entries_from_NoDup.
    + rewrite fmap_take. apply sublist_take.
  - rewrite length_take. unfold sorted.
    by rewrite stable_sort_length, <-(entries_from_length 0).
  - by eapply StronglySorted_app_1_l.
  - intros e i v He Hs Hout.
    eapply StronglySorted_app_1_elem_of; [exact Hsorted|exact He|].
    assert ((i, v) ∈ take n sorted ++ drop n sorted) as Hiv.
    { rewrite take_drop. by apply Hin. }
    apply elem_of_app in Hiv as [?|?]; done.
Qed.

Lemma sorted_high_top_n (n : nat) (s : list (option Q)) :
  top_n ranks_high n s
    (take n (stable_sort (λ a b : nat * Q, Qle_bool b.2 a.2) (entries s))).
Proof.
  apply take_stable_sort_top_n.
  - apply ranks_high_trans.
  - intros a b Hb Hpos. apply Qle_bool_iff, Qle_lteq in Hb as [?|Heq].
    + by left.
    + right. split; [by symmetry|done].
  - intros a b Hb. left. by apply Qle_bool_false.
Qed.

Lemma sorted_low_top_n (n : nat) (s : list (option Q)) :
  top_n ranks_low n s
    (take n (stable_sort (λ a b : nat * Q, Qle_bool a.2 b.2) (entries s))).
Proof.
  apply take_stable_sort_top_n.
  - apply ranks_low_trans.
  - intros a b Hb Hpos. apply Qle_bool_iff, Qle_lteq in Hb as [?|Heq].
    + by left.
    + by right.
  - intros a b Hb. left. by apply Qle_bool_false.
Qed.

Lemma top_n_zero (ranks : nat * Q → nat * Q → Prop) (s : list (option Q)) :
  top_n ranks 0 s [].
Proof.
  repeat split.
  - by intros e ?%elem_of_nil.
  - constructor.
  - constructor.
  - by intros e i v ?%elem_of_nil.
Qed.

(** A selection is the ranked numbers it has room for, then missing cells
    for the room that is left. *)
Lemma take_ranked_padded (n : nat) (s : list (option Q))
    (before : nat * Q → nat * Q → bool) :
  take n ((number <$> stable_sort before (entries s)) ++ (nan <$> missing s))
  = (number <$> take n (stable_sort before (entries s)))
    ++ (nan <$> take (n - length (dropna s)) (missing s)).
Proof.
  rewrite take_app, !fmap_take, length_fmap, stable_sort_length.
  unfold entries. by rewrite entries_from_length.
Qed.

Lemma missing_from_elem_of (i k : nat) (s : list (option Q)) :
  k ∈ missing_from i s ↔ ∃ j, k = (i + j)%nat ∧ s !! j = Some None.
Proof.
  revert i. induction s as [|[v|] s IH]; intros i; simpl.
  - split; [by intros ?%elem_of_nil|by intros (j & _ & ?)].
  - rewrite IH. split.
    + intros (j & Hj & Hs). exists (S j). split; [lia|done].
    + intros ([|j] & Hj & Hs); simpl in *; [done|].
      exists j. split; [lia|done].
  - rewrite elem_of_cons, IH. split.
    + intros [->|(j & Hj & Hs)]; [exists 0%nat|exists (S j)]; simpl;
        (split; [lia|done]).
    + intros ([|j] & Hj & Hs); simpl in *.
      * left. lia.
      * right. exists j. split; [lia|done].
Qed.

Lemma missing_from_increasing (i : nat) (s : list (option Q)) :
  StronglySorted lt (missing_from i s).
Proof.
  revert i. induction s as [|[v|] s IH]; intros i; simpl;
    [constructor|apply IH|].
  constructor; [apply IH|]. apply Forall_forall.
  intros k (j & -> & _)%missing_from_elem_of. lia.
Qed.
End ExtremesFacts.

(** C7, as the spec words it, fails: asked for 3 marks on the series
    10, NaN, 30, which has two numbers, the code returns three highs, the
    third being the missing cell at position 1. *)
Lemma marks_top_n_fails :
  ¬ Extremes.marks_top_n [Some 10; None; Some 30]%Q 3.
Proof.
  intros (highs & lows & Hmark & _).
  assert (Extremes._mark [Some 10; None; Some 30]%Q 3
          = ([(2%nat, Some 30%Q); (0%nat, Some 10%Q); (1%nat, None)],
             [(0%nat, Some 10%Q); (2%nat, Some 30%Q); (1%nat, None)]))
    as Hcode by reflexivity.
  rewrite Hcode in Hmark. injection Hmark as Hhighs _.
  destruct highs as [|e1 [|e2 [|e3 highs]]]; discriminate Hhighs.
Qed.

(** C7, amended: with N = 0 (or less), and for a series without a number,
    the marking returns no highs and no lows.  With N > 0 and a series that
    has a number, the highs are the N largest numbers of the series with
    their positions and the lows the N smallest, equal values in encounter
    order; when the series has fewer than N numbers, all its numbers are
    returned so ranked, followed by missing cells of the series in
    encounter order for the places left.  So the spec's words hold whenever
    the series has at least N numbers. *)
Theorem mark_top_n (s : list (option Q)) (n : Z) :
  Extremes._mark s 0 = ([], [])
  ∧ (n ≤ 0 → Extremes._mark s n = ([], []))
  ∧ (dropna s = [] → Extremes._mark s n = ([], []))
  ∧ (0 < n → dropna s ≠ [] →
     ∃ highs lows : list (nat * Q),
       Extremes._mark s n
       = ((Extremes.number <$> highs)
          ++ (Extremes.nan
                <$> take (Z.to_nat n - length (dropna s)) (Extremes.missing s)),
          (Extremes.number <$> lows)
          ++ (Extremes.nan
                <$> take (Z.to_nat n - length (dropna s)) (Extremes.missing s)))
       ∧ Extremes.top_n Extremes.ranks_high (Z.to_nat n) s highs
       ∧ Extremes.top_n Extremes.ranks_low (Z.to_nat n) s lows)
  ∧ ((Z.to_nat n ≤ length (dropna s))%nat → Extremes.marks_top_n s n)
  ∧ StronglySorted lt (Extremes.missing s)
  ∧ (∀ i, i ∈ Extremes.missing s ↔ s !! i = Some None).
Proof.
  assert (n ≤ 0 → Extremes._mark s n = ([], [])) as Hle.
  { intros Hn. unfold Extremes._mark. by rewrite (proj2 (Z.leb_le n 0) Hn). }
  assert (dropna s = [] → Extremes._mark s n = ([], [])) as Hnone.
  { intros Hs. unfold Extremes._mark.
    rewrite bool_decide_true by done. by rewrite orb_true_r. }
  assert (0 < n → dropna s ≠ [] →
     ∃ highs lows : list (nat * Q),
       Extremes._mark s n
       = ((Extremes.number <$> highs)
          ++ (Extremes.nan
                <$> take (Z.to_nat n - length (dropna s)) (Extremes.missing s)),
          (Extremes.number <$> lows)
          ++ (Extremes.nan
                <$> take (Z.to_nat n - length (dropna s)) (Extremes.missing s)))
       ∧ Extremes.top_n Extremes.ranks_high (Z.to_nat n) s highs
       ∧ Extremes.top_n Extremes.ranks_low (Z.to_nat n) s lows) as Hpos.
  { intros Hn Hs. unfold Extremes._mark.
    rewrite (proj2 (Z.leb_gt n 0) Hn), bool_decide_false by done. simpl.
    unfold Extremes.nlargest, Extremes.nsmallest.
    rewrite !take_ranked_padded. eexists _, _. split; [reflexivity|].
    split; [apply sorted_high_top_n|apply sorted_low_top_n]. }
  split; [done|]. split; [done|]. split; [done|]. split; [done|].
  split; [|split].
  - intros Hcount. destruct (Z.le_gt_cases n 0) as [Hn|Hn].
    + exists [], []. rewrite (Hle Hn).
      replace (Z.to_nat n) with 0%nat by lia.
      split; [done|]. split; apply top_n_zero.
    + assert (dropna s ≠ []) as Hs.
      { intros Hs. rewrite Hs in Hcount. simpl in Hcount. lia. }
      destruct (Hpos Hn Hs) as (highs & lows & Hmark & Hhi & Hlo).
      exists highs, lows. split; [|done]. rewrite Hmark.
      replace (Z.to_nat n - length (dropna s))%nat with 0%nat by lia.
      by rewrite !app_nil_r.
  - apply missing_from_increasing.
  - intros i. unfold Extremes.missing. rewrite missing_from_elem_of.
    split; [by intros (j & -> & ?)|]. intros ?. by exists i.
Qed.

Lemma mark_top_n_witness :
  ∃ highs lows : list (nat * Q),
    Extremes._mark [Some 10; None; Some 30]%Q 3
    = ((Extremes.number <$> highs)
       ++ (Extremes.nan
             <$> take (Z.to_nat 3 - length (dropna [Some 10; None; Some 30]%Q))
                   (Extremes.missing [Some 10; None; Some 30]%Q)),
       (Extremes.number <$> lows)
       ++ (Extremes.nan
             <$> take (Z.to_nat 3 - length (dropna [Some 10; None; Some 30]%Q))
                   (Extremes.missing [Some 10; None; Some 30]%Q)))
    ∧ Extremes.top_n Extremes.ranks_high (Z.to_nat 3)
        [Some 10; None; Some 30]%Q highs
    ∧ Extremes.top_n Extremes.ranks_low (Z.to_nat 3)
        [Some 10; None; Some 30]%Q lows.
Proof.
  apply (proj1 (proj2 (proj2 (proj2 (mark_top_n
           [Some 10; None; Some 30]%Q 3))))).
  - reflexivity.
  - discriminate.
Defined.

(** ** Winsorizing *)

Section WinsorizeFacts.
Import Winsorize.
Implicit Types (σ : gmap positive (gmap string column))
  (fr : gmap string column) (q : Q * Q).

Lemma on_numeric_id (col : column) : on_numeric (λ s, s) col = col.
Proof. by destruct col. Qed.

Lemma winsorize_column_run σ (df : positive) fr q (c : string) :
  σ !! df = Some fr →
  valid_q q.1 && valid_q q.2 = true →
  (∀ col, fr !! c = Some col → is_numeric col) →
  winsorize_column df q c σ
  = inr (tt, <[df := alter (on_numeric (clip_to_quantiles q)) c fr]> σ).
Proof.
  intros Hdf Hq Hnum.
  unfold winsorize_column, bind, has_column, getitem, setitem.
  rewrite Hdf. destruct (fr !! c) as [col|] eqn:Hc.
  - rewrite bool_decide_true by eauto. rewrite Hdf, Hc.
    destruct col as [s|s]; [|by destruct (Hnum _ eq_refl)].
    unfold quantile. rewrite Hq. unfold lift at 1, ret. rewrite Hdf, Hc.
    cbn [fst snd]. unfold clip, clip_to_quantiles.
    assert (∀ s', <[c := NumCol s']> fr
                  = alter (on_numeric (λ _, s')) c fr) as Hins.
    { intros s'. apply map_eq. intros c'.
      destruct (decide (c = c')) as [<-|Hne].
      - by rewrite lookup_insert_eq, lookup_alter_eq, Hc.
      - by rewrite lookup_insert_ne, lookup_alter_ne. }
    assert (∀ f, alter (on_numeric f) c fr
                 = alter (on_numeric (λ _, f s)) c fr) as Halt.
    { intros f. apply map_eq. intros c'.
      destruct (decide (c = c')) as [<-|Hne].
      - by rewrite !lookup_alter_eq, Hc.
      - by rewrite !lookup_alter_ne. }
    rewrite Halt.
    destruct (quantile_sorted _ q.1), (quantile_sorted _ q.2);
      unfold lift, ret; rewrite Hdf, Hins; done.
  - rewrite bool_decide_false by (by intros [??]).
    unfold ret. by rewrite alter_id', insert_id.
Qed.

Lemma for_each_winsorize_column σ (df : positive) fr q
    (cols : list string) :
  σ !! df = Some fr →
  valid_q q.1 && valid_q q.2 = true →
  (∀ c col, c ∈ cols → fr !! c = Some col → is_numeric col) →
  for_each cols (winsorize_column df q) σ
  = inr (tt, <[df := foldl (λ fr c,
                 alter (on_numeric (clip_to_quantiles q)) c fr) fr cols]> σ).
Proof.
  intros Hdf Hq. revert σ fr Hdf.
  induction cols as [|c cols IH]; intros σ fr Hdf Hnum; simpl.
  - unfold ret. by rewrite insert_id.
  - unfold bind at 1.
    rewrite (winsorize_column_run σ df fr q c Hdf Hq)
      by (intros col; apply Hnum; left).
    rewrite (IH _ (alter (on_numeric (clip_to_quantiles q)) c fr)).
    + by rewrite insert_insert_eq.
    + apply lookup_insert_eq.
    + intros c' col Hc'. destruct (decide (c = c')) as [<-|Hne].
      * rewrite lookup_alter_eq.
        destruct (fr !! c) as [[s|s]|] eqn:Hc; simpl; intros [= <-];
          [done|]. eapply (Hnum c); [left|exact Hc].
      * rewrite lookup_alter_ne by done. apply Hnum. by right.
Qed.

Lemma foldl_alter_lookup (f : list (option Q) → list (option Q)) fr
    (cols : list string) (c : string) :
  foldl (λ fr c, alter (on_numeric f) c fr) fr cols !! c
  = on_numeric (Nat.iter (listed c cols) f) <$> fr !! c.
Proof.
  revert fr. unfold listed.
  induction cols as [|c0 cols IH]; intros fr; simpl.
  - destruct (fr !! c) as [col|]; simpl; [|done].
    by rewrite on_numeric_id.
  - rewrite IH, filter_cons. destruct (decide (c0 = c)) as [->|Hne].
    + rewrite lookup_alter_eq. destruct (fr !! c) as [[s|s]|]; simpl;
        [|done..]. by rewrite <-Nat.iter_succ_r.
    + by rewrite lookup_alter_ne.
Qed.

Lemma listed_0 (c : string) (cols : list string) :
  c ∉ cols → listed c cols = 0%nat.
Proof.
  intros Hc. unfold listed.
  rewrite (elem_of_nil_inv (filter (λ c', c' = c) cols)); [done|].
  intros c' [-> ?]%list_elem_of_filter. done.
Qed.

End WinsorizeFacts.

(** * Further properties of the pipeline *)

(** ** Window sizing *)

Lemma _odd_spec (k : Z) :
  Z.odd (Windows._odd k) = true
  ∧ Z.max 3 k ≤ Windows._odd k ≤ Z.max 3 k + 1.
Proof.
  unfold Windows._odd; cbv zeta.
  destruct (Z.eqb_spec (Z.max 3 k `mod` 2) 1) as [Hm|Hm].
  - split; [|lia]. by rewrite Zodd_mod, Hm.
  - split; [|lia]. rewrite Zodd_mod.
    apply Z.eqb_eq. rewrite Z.add_mod by lia.
    pose proof (Z.mod_pos_bound (Z.max 3 k) 2). 
    assert (Z.max 3 k `mod` 2 = 0) as -> by lia. done.
Qed.

Lemma _odd_mono (j k : Z) : j ≤ k → Windows._odd j ≤ Windows._odd k.
Proof.
  intros Hjk. destruct (_odd_spec j) as [Hj Hj'], (_odd_spec k) as [Hk Hk'].
  destruct (decide (Z.max 3 j = Z.max 3 k)) as [Heq|Hne].
  - unfold Windows._odd; cbv zeta. by rewrite Heq.
  - assert (Z.max 3 j + 1 ≤ Z.max 3 k) by lia. lia.
Qed.

(** X1: the smoothing window is always between 3 and 24, never shrinks
    when the series grows, is 3 up to 79 points, [n // 20] from 60 to 499
    points and 24 from 480 points on. *)
Theorem win_bounds_monotone (n m : Z) :
  3 ≤ Windows._win n ≤ 24
  ∧ (n ≤ m → Windows._win n ≤ Windows._win m)
  ∧ (n < 80 → Windows._win n = 3)
  ∧ (60 ≤ n < 500 → Windows._win n = n / 20)
  ∧ (480 ≤ n → Windows._win n = 24).
Proof.
  unfold Windows._win. split; [lia|]. split; [|split; [|split]].
  - intros Hnm. pose proof (Z.div_le_mono n m 20 ltac:(lia) Hnm). lia.
  - intros Hn. assert (n / 20 ≤ 3); [|lia].
    apply Z.lt_succ_r, Z.div_lt_upper_bound; lia.
  - intros [Hlo Hhi].
    assert (3 ≤ n / 20) by (apply Z.div_le_lower_bound; lia).
    assert (n / 20 < 25) by (apply Z.div_lt_upper_bound; lia). lia.
  - intros Hn.
    assert (24 ≤ n / 20) by (apply Z.div_le_lower_bound; lia). lia.
Qed.

Lemma win_bounds_monotone_witness :
  Windows._win 744 ≤ Windows._win 1000 ∧ Windows._win 744 = 24.
Proof.
  split.
  - apply (proj1 (proj2 (win_bounds_monotone 744 1000))). lia.
  - apply (proj2 (proj2 (proj2 (proj2 (win_bounds_monotone 744 0))))). lia.
Defined.

(** X2: whenever the engine runs (n >= 48, period 24) the windows handed
    to STL are odd, the seasonal one between 7 and 25, the trend one
    between 25 and 121 and so above the period; both grow with n and
    settle at 25 (n >= 192) and 121 (n >= 240). *)
Theorem stl_windows_valid (n m : Z) :
  48 ≤ n →
  Z.odd (Windows.seasonal_w 24 n) = true
  ∧ Z.odd (Windows.trend_w 24 n) = true
  ∧ 7 ≤ Windows.seasonal_w 24 n ≤ 25
  ∧ 25 ≤ Windows.trend_w 24 n ≤ 121
  ∧ 24 < Windows.trend_w 24 n
  ∧ (n ≤ m → Windows.seasonal_w 24 n ≤ Windows.seasonal_w 24 m
             ∧ Windows.trend_w 24 n ≤ Windows.trend_w 24 m)
  ∧ (192 ≤ n → Windows.seasonal_w 24 n = 25)
  ∧ (240 ≤ n → Windows.trend_w 24 n = 121).
Proof.
  intros Hn. unfold Windows.seasonal_w, Windows.trend_w.
  assert (6 ≤ n / 8) by (apply Z.div_le_lower_bound; lia).
  assert (24 ≤ n / 2) by (apply Z.div_le_lower_bound; lia).
  set (a := Z.min (Z.max 11 24) (Z.max 7 (n / 8))).
  set (b := Z.min (Z.max 35 (24 * 5)) (Z.max 7 (n / 2))).
  destruct (_odd_spec a) as [Ha Ha'], (_odd_spec b) as [Hb Hb'].
  assert (7 ≤ a ≤ 24) by (unfold a; lia).
  assert (24 ≤ b ≤ 120) by (unfold b; lia).
  assert (Windows._odd b ≠ 24).
  { intros Heq. rewrite Heq in Hb. discriminate. }
  assert (Windows._odd b ≠ 122).
  { intros Heq. rewrite Heq in Hb. discriminate. }
  assert (Windows._odd a ≠ 26).
  { intros Heq. rewrite Heq in Ha. discriminate. }
  split; [done|]. split; [done|]. split; [lia|]. split; [lia|].
  split; [lia|]. split; [|split].
  - intros Hnm.
    pose proof (Z.div_le_mono n m 8 ltac:(lia) Hnm).
    pose proof (Z.div_le_mono n m 2 ltac:(lia) Hnm).
    split; apply _odd_mono; lia.
  - intros Hbig. assert (24 ≤ n / 8) by (apply Z.div_le_lower_bound; lia).
    assert (a = 24) as -> by (unfold a; lia). reflexivity.
  - intros Hbig. assert (120 ≤ n / 2) by (apply Z.div_le_lower_bound; lia).
    assert (b = 120) as -> by (unfold b; lia). reflexivity.
Qed.

Lemma stl_windows_valid_witness :
  24 < Windows.trend_w 24 48 ∧ Windows.seasonal_w 24 48 ≤ 25.
Proof.
  pose proof (stl_windows_valid 48 48 ltac:(lia)) as H. split.
  - exact (proj1 (proj2 (proj2 (proj2 (proj2 H))))).
  - exact (proj2 (proj1 (proj2 (proj2 H)))).
Defined.

(** X3: whenever the engine runs (n >= 48) the rolling window slider is
    well formed: its lower end 3 is below its initial value, which is 24,
    and the initial value is at most its upper end, which never exceeds
    168 nor the length of the series. *)
Theorem roll_slider_well_formed (n : Z) :
  48 ≤ n →
  3 ≤ Controls.roll_h_default n
  ∧ Controls.roll_h_default n = 24
  ∧ Controls.roll_h_default n ≤ Controls.max_win n
  ∧ Controls.max_win n ≤ 168
  ∧ Controls.max_win n ≤ n.
Proof. unfold Controls.roll_h_default, Controls.max_win. lia. Qed.

Lemma roll_slider_well_formed_witness :
  Controls.roll_h_default 744 = 24 ∧ Controls.max_win 744 ≤ 168.
Proof.
  pose proof (roll_slider_well_formed 744 ltac:(lia)) as H. split.
  - exact (proj1 (proj2 H)).
  - exact (proj1 (proj2 (proj2 (proj2 H)))).
Defined.

(** ** The span of a resampled grid *)

Lemma last_elem_of {A : Type} (x d : A) (l : list A) :
  List.last (x :: l) d ∈ x :: l.
Proof.
  revert x. induction l as [|y l IH]; intros x; simpl; [by left|].
  right. apply IH.
Qed.

Lemma resample_span {R G : Type} (time : R → Z) (agg : list R → G)
    (r : Resampler.rule) (rows : list R) :
  rows ≠ [] →
  ∃ lo hi,
    Resampler.resample time agg r rows
    = (λ b, (b * Resampler.freq r,
             agg (filter (Resampler.in_bucket time r b)
                    (Resampler.sort_index time rows))))
        <$> seqZ lo (hi - lo + 1)
    ∧ lo ≤ hi
    ∧ (∃ x, x ∈ rows ∧ Resampler.bucket r (time x) = lo)
    ∧ (∃ x, x ∈ rows ∧ Resampler.bucket r (time x) = hi)
    ∧ (∀ x, x ∈ rows → lo ≤ Resampler.bucket r (time x) ≤ hi).
Proof.
  intros Hrows. unfold Resampler.resample.
  pose proof (sort_index_sorted time rows) as Hs.
  pose proof (stable_sort_elem_of (λ x y, time x <=? time y) rows) as Hin.
  fold (Resampler.sort_index time rows) in Hin.
  destruct (Resampler.sort_index time rows) as [|first rest] eqn:Hsort.
  { destruct rows as [|x rows]; [done|].
    specialize (Hin x). rewrite elem_of_nil in Hin.
    exfalso. apply Hin. left. }
  set (final := List.last (first :: rest) first).
  assert (∀ x, x ∈ rows → time first ≤ time x ≤ time final) as Hbounds.
  { intros x Hx%Hin. split.
    - apply elem_of_cons in Hx as [->|Hx]; [lia|].
      apply StronglySorted_inv in Hs as [_ Hall].
      rewrite Forall_forall in Hall. by apply Hall.
    - destruct (StronglySorted_last _ _ first x Hs Hx) as [->|?];
        unfold final; lia. }
  assert (first ∈ rows) as Hfirst by (apply Hin; left).
  assert (final ∈ rows) as Hfinal by (apply Hin, last_elem_of).
  pose proof (freq_pos r) as Hf.
  assert (∀ x, x ∈ rows →
            Resampler.bucket r (time first) ≤ Resampler.bucket r (time x)
            ≤ Resampler.bucket r (time final)) as Hb.
  { intros x [Hlo Hhi]%Hbounds. unfold Resampler.bucket.
    split; by apply Z.div_le_mono. }
  exists (Resampler.bucket r (time first)), (Resampler.bucket r (time final)).
  split; [done|]. split; [apply (Hb final Hfinal)|].
  split; [by exists first|]. split; [by exists final|]. done.
Qed.

(** X4: resampling no record gives an empty grid; resampling some records
    gives one grid point for every bucket from the earliest record's to the
    latest record's, in increasing order of their labels, whatever the order
    of the input: the labels are the starts of the buckets [lo .. hi] where
    [lo] and [hi] are the buckets of two records and enclose every
    record's. *)
Theorem resample_grid_span {R G : Type} (time : R → Z) (agg : list R → G)
    (r : Resampler.rule) (rows : list R) :
  Resampler.resample time agg r [] = []
  ∧ (rows ≠ [] →
     ∃ lo hi,
       (Resampler.resample time agg r rows).*1
       = (λ b, b * Resampler.freq r) <$> seqZ lo (hi - lo + 1)
       ∧ lo ≤ hi
       ∧ Z.of_nat (length (Resampler.resample time agg r rows)) = hi - lo + 1
       ∧ (∃ x, x ∈ rows ∧ Resampler.bucket r (time x) = lo)
       ∧ (∃ x, x ∈ rows ∧ Resampler.bucket r (time x) = hi)
       ∧ (∀ x, x ∈ rows → lo ≤ Resampler.bucket r (time x) ≤ hi)).
Proof.
  split; [done|]. intros Hrows.
  destruct (resample_span time agg r rows Hrows)
    as (lo & hi & -> & Hle & Hlo & Hhi & Hall).
  exists lo, hi. split; [by rewrite <-list_fmap_compose|].
  split; [done|]. split; [|done].
  rewrite length_fmap, length_seqZ. lia.
Qed.

Lemma resample_grid_span_witness :
  ∃ lo hi,
    (Resampler.ts Resampler.H
       [Resampler.mkRow (hours 5) None None None;
        Resampler.mkRow (hours 2) None None None]).*1
    = (λ b, b * Resampler.freq Resampler.H) <$> seqZ lo (hi - lo + 1)
    ∧ lo ≤ hi.
Proof.
  destruct (proj2 (resample_grid_span Resampler.datetime Resampler.agg_ts
    Resampler.H
    [Resampler.mkRow (hours 5) None None None;
     Resampler.mkRow (hours 2) None None None]) ltac:(discriminate))
    as (lo & hi & Hlabels & Hle & _).
  exists lo, hi. split; [exact Hlabels|exact Hle].
Defined.

Lemma ffill_from_length (prev : option Q) (s : list (option Q)) :
  length (Resampler.ffill_from prev s) = length s.
Proof.
  revert prev. induction s as [|c s IH]; intros prev; simpl; [done|].
  by rewrite IH.
Qed.

Lemma ts_hourly_length (df_my : list Resampler.Row) :
  length (Resampler.ts_hourly df_my)
  = length (Resampler.resample Resampler.datetime
              (λ rows, Resampler.mean (Resampler.traffic_volume <$> rows))
              Resampler.H df_my).
Proof.
  unfold Resampler.ts_hourly, Resampler.ffill.
  by rewrite ffill_from_length, length_fmap.
Qed.

Lemma decompose_on_span
    (STL : list (option Q) → Z → Z → Z → bool
           → option (list (option Q) * list (option Q) * list (option Q)))
    (seasonal_decompose : list (option Q) → Z
                          → option Decomposition.DecompositionResult)
    (algo : string) (rows : list Resampler.Row) :
  ((∃ x y, x ∈ rows ∧ y ∈ rows
           ∧ 47 ≤ Resampler.bucket Resampler.H (Resampler.datetime y)
                  - Resampler.bucket Resampler.H (Resampler.datetime x)) →
   Decomposition.ran
     (Decomposition.decompose STL seasonal_decompose algo
        (Resampler.ts_hourly rows)))
  ∧ ((∀ x y, x ∈ rows → y ∈ rows →
        Resampler.bucket Resampler.H (Resampler.datetime y)
        - Resampler.bucket Resampler.H (Resampler.datetime x) < 47) →
     Decomposition.decompose STL seasonal_decompose algo
       (Resampler.ts_hourly rows)
     = Decomposition.st_info Decomposition.not_enough).
Proof.
  unfold Decomposition.decompose. cbv zeta.
  rewrite ts_hourly_length.
  destruct (decide (rows = [])) as [->|Hrows].
  { split; [|done]. intros (x & _ & Hx & _). by apply elem_of_nil in Hx. }
  destruct (proj2 (resample_grid_span Resampler.datetime
              (λ rows, Resampler.mean (Resampler.traffic_volume <$> rows))
              Resampler.H rows) Hrows)
    as (lo & hi & _ & Hle & -> & (x0 & Hx0 & Hlo) & (y0 & Hy0 & Hhi) & Hall).
  split.
  - intros (x & y & Hx & Hy & Hfar).
    pose proof (Hall x Hx). pose proof (Hall y Hy).
    rewrite (proj2 (Z.leb_le 48 (hi - lo + 1))) by lia.
    destruct (String.prefix "STL" algo).
    + by destruct (STL _ _ _ _ _) as [[[??]?]|].
    + by destruct (seasonal_decompose _ _).
  - intros Hnear. specialize (Hnear x0 y0 Hx0 Hy0).
    by rewrite (proj2 (Z.leb_gt 48 (hi - lo + 1))) by lia.
Qed.

Lemma years_nil (year : Z → Z) (df_m : list Resampler.Row) :
  Decomposition.years year df_m = [] ↔ df_m = [].
Proof.
  unfold Decomposition.years. split; [|by intros ->].
  intros Hnil. destruct df_m as [|x df_m]; [done|]. exfalso.
  assert (year (Resampler.datetime x)
          ∈ stable_sort Z.leb
              (remove_dups ((λ x, year (Resampler.datetime x))
                              <$> x :: df_m))) as Hin.
  { apply stable_sort_elem_of, elem_of_remove_dups. left. }
  rewrite Hnil in Hin. by apply elem_of_nil in Hin.
Qed.

(** X5: the engine counts hourly buckets, not records.  Without a row in
    the selected month the page says so and the guard is not reached.
    Otherwise the engine runs (calls the library) as soon as two records of
    the chosen year lie 47 or more hourly buckets apart, however few the
    records, and reports insufficient data when no two of them do. *)
Theorem decomposition_runs_on_span
    (STL : list (option Q) → Z → Z → Z → bool
           → option (list (option Q) * list (option Q) * list (option Q)))
    (seasonal_decompose : list (option Q) → Z
                          → option Decomposition.DecompositionResult)
    (year : Z → Z) (algo : string) (decomp_year : Z)
    (df_m : list Resampler.Row) :
  (df_m = [] →
   Decomposition.decomposition STL seasonal_decompose year algo decomp_year
     df_m
   = Decomposition.st_info Decomposition.no_rows)
  ∧ (df_m ≠ [] →
     (∃ x y, x ∈ Decomposition.df_my year decomp_year df_m
             ∧ y ∈ Decomposition.df_my year decomp_year df_m
             ∧ 47 ≤ Resampler.bucket Resampler.H (Resampler.datetime y)
                    - Resampler.bucket Resampler.H (Resampler.datetime x)) →
     Decomposition.ran
       (Decomposition.decomposition STL seasonal_decompose year algo
          decomp_year df_m))
  ∧ (df_m ≠ [] →
     (∀ x y, x ∈ Decomposition.df_my year decomp_year df_m →
        y ∈ Decomposition.df_my year decomp_year df_m →
        Resampler.bucket Resampler.H (Resampler.datetime y)
        - Resampler.bucket Resampler.H (Resampler.datetime x) < 47) →
     Decomposition.decomposition STL seasonal_decompose year algo
       decomp_year df_m
     = Decomposition.st_info Decomposition.not_enough).
Proof.
  unfold Decomposition.decomposition. split; [|split].
  - intros ->. by rewrite bool_decide_true.
  - intros Hrows Hfar.
    rewrite bool_decide_false by (by rewrite years_nil).
    by apply decompose_on_span.
  - intros Hrows Hnear.
    rewrite bool_decide_false by (by rewrite years_nil).
    by apply decompose_on_span.
Qed.

Lemma decomposition_runs_on_span_witness :
  Decomposition.ran
    (Decomposition.decomposition
       (λ s _ _ _ _, Some (s, s, s))
       (λ s _, Some (Decomposition.mkDecomp s s s s))
       (λ _, 2024) "STL (robust)" 2024
       [Resampler.mkRow (hours 0) (Some 1%Q) None None;
        Resampler.mkRow (hours 47) (Some 2%Q) None None]).
Proof.
  apply (proj1 (proj2 (decomposition_runs_on_span
           (λ s _ _ _ _, Some (s, s, s))
           (λ s _, Some (Decomposition.mkDecomp s s s s))
           (λ _, 2024) "STL (robust)" 2024
           [Resampler.mkRow (hours 0) (Some 1%Q) None None;
            Resampler.mkRow (hours 47) (Some 2%Q) None None]))).
  - discriminate.
  - exists (Resampler.mkRow (hours 0) (Some 1%Q) None None),
           (Resampler.mkRow (hours 47) (Some 2%Q) None None).
    split; [left|]. split; [right; left|]. vm_compute. discriminate.
Defined.

(** ** Coverage in days *)

Lemma ts_max_spec (t : Z) (ts : list Z) :
  Kpi.ts_max t ts ∈ t :: ts ∧ ∀ u, u ∈ t :: ts → u ≤ Kpi.ts_max t ts.
Proof.
  unfold Kpi.ts_max. induction ts as [|u ts [IHin IHle]]; simpl.
  - split; [by left|]. intros u ->%list_elem_of_singleton. lia.
  - split.
    + destruct (Z.max_spec u (foldr Z.max t ts)) as [[_ ->]|[_ ->]].
      * apply elem_of_cons in IHin as [->|?]; [by left|by do 2 right].
      * right; left.
    + intros v Hv. assert (v = u ∨ v ∈ t :: ts) as [->|Hv'].
      { apply elem_of_cons in Hv as [->|Hv]; [right; left|].
        apply elem_of_cons in Hv as [->|Hv]; [by left|by do 2 right]. }
      * lia.
      * specialize (IHle v Hv'). lia.
Qed.

Lemma ts_min_spec (t : Z) (ts : list Z) :
  Kpi.ts_min t ts ∈ t :: ts ∧ ∀ u, u ∈ t :: ts → Kpi.ts_min t ts ≤ u.
Proof.
  unfold Kpi.ts_min. induction ts as [|u ts [IHin IHle]]; simpl.
  - split; [by left|]. intros u ->%list_elem_of_singleton. lia.
  - split.
    + destruct (Z.min_spec u (foldr Z.min t ts)) as [[_ ->]|[_ ->]].
      * right; left.
      * apply elem_of_cons in IHin as [->|?]; [by left|by do 2 right].
    + intros v Hv. assert (v = u ∨ v ∈ t :: ts) as [->|Hv'].
      { apply elem_of_cons in Hv as [->|Hv]; [right; left|].
        apply elem_of_cons in Hv as [->|Hv]; [by left|by do 2 right]. }
      * lia.
      * specialize (IHle v Hv'). lia.
Qed.

Lemma div_difference (a b d : Z) :
  0 < d → a ≤ b → (b - a) / d ≤ b / d - a / d ≤ (b - a) / d + 1.
Proof.
  intros Hd Hab.
  pose proof (Z.div_mod a d ltac:(lia)).
  pose proof (Z.div_mod b d ltac:(lia)).
  pose proof (Z.div_mod (b - a) d ltac:(lia)).
  pose proof (Z.mod_pos_bound a d Hd).
  pose proof (Z.mod_pos_bound b d Hd).
  pose proof (Z.mod_pos_bound (b - a) d Hd).
  nia.
Qed.

(** X6: for a frame with rows the coverage KPI is a number of days, at
    least 1, and the daily grid of the same rows has that many points or
    one more (the span may straddle one more midnight than it has whole
    days); without rows the KPI is the dash. *)
Theorem coverage_days_vs_daily_grid (df : list Resampler.Row) :
  Kpi.coverage_days [] = None
  ∧ (df ≠ [] →
     ∃ c, Kpi.coverage_days df = Some c
          ∧ 1 ≤ c
          ∧ c ≤ Z.of_nat (length (Resampler.ts Resampler.D df)) ≤ c + 1).
Proof.
  split; [done|]. intros Hdf.
  destruct (proj2 (resample_grid_span Resampler.datetime Resampler.agg_ts
              Resampler.D df) Hdf)
    as (lo & hi & _ & Hle & Hlen & (x0 & Hx0 & Hlo) & (y0 & Hy0 & Hhi) & Hall).
  unfold Resampler.ts. rewrite Hlen. unfold Kpi.coverage_days.
  destruct df as [|x df]; [done|]. rewrite fmap_cons.
  set (t := Resampler.datetime x). set (ts := Resampler.datetime <$> df).
  destruct (ts_max_spec t ts) as [Hmax_in Hmax], (ts_min_spec t ts)
    as [Hmin_in Hmin].
  change (t :: ts) with (Resampler.datetime <$> x :: df) in *.
  apply list_elem_of_fmap in Hmax_in as (xmax & Hxmax & Hxmax_in).
  apply list_elem_of_fmap in Hmin_in as (xmin & Hxmin & Hxmin_in).
  assert (∀ z, z ∈ x :: df →
            Kpi.ts_min t ts ≤ Resampler.datetime z ≤ Kpi.ts_max t ts) as Hb.
  { intros z Hz. split; [apply Hmin|apply Hmax]; by apply list_elem_of_fmap_2. }
  assert (0 < 86400 * 1000000000) as Hd by lia.
  assert (lo = Kpi.ts_min t ts / (86400 * 1000000000)) as Hlo'.
  { pose proof (Hall xmin Hxmin_in) as [Hl _]. rewrite <-Hxmin in Hl.
    pose proof (Z.div_le_mono _ _ _ Hd (proj1 (Hb x0 Hx0))) as Hl'.
    unfold Resampler.bucket, Resampler.freq in *. lia. }
  assert (hi = Kpi.ts_max t ts / (86400 * 1000000000)) as Hhi'.
  { pose proof (Hall xmax Hxmax_in) as [_ Hh]. rewrite <-Hxmax in Hh.
    pose proof (Z.div_le_mono _ _ _ Hd (proj2 (Hb y0 Hy0))) as Hh'.
    unfold Resampler.bucket, Resampler.freq in *. lia. }
  assert (Kpi.ts_min t ts ≤ Kpi.ts_max t ts) as Hmm.
  { pose proof (Hb x ltac:(left)). lia. }
  pose proof (div_difference _ _ _ Hd Hmm).
  pose proof (Z.div_pos (Kpi.ts_max t ts - Kpi.ts_min t ts)
                (86400 * 1000000000) ltac:(lia) Hd).
  eexists. split; [reflexivity|]. lia.
Qed.

Lemma coverage_days_vs_daily_grid_witness :
  ∃ c, Kpi.coverage_days
         [Resampler.mkRow (hours 23) None None None;
          Resampler.mkRow (hours 25) None None None] = Some c
       ∧ 1 ≤ c.
Proof.
  destruct (proj2 (coverage_days_vs_daily_grid
    [Resampler.mkRow (hours 23) None None None;
     Resampler.mkRow (hours 25) None None None]) ltac:(discriminate))
    as (c & Hc & Hpos & _).
  exists c. split; [exact Hc|exact Hpos].
Defined.

(** ** The joined table covers the overlap of the two grids *)

Lemma StronglySorted_filter {A : Type} (R : A → A → Prop) (P : A → Prop)
    `{∀ x, Decision (P x)} (l : list A) :
  StronglySorted R l → StronglySorted R (filter P l).
Proof.
  induction 1 as [|x l Hl IH Hx]; [constructor|].
  rewrite filter_cons. case_decide; [|done].
  constructor; [done|]. apply Forall_forall.
  intros y [_ Hy]%list_elem_of_filter.
  rewrite Forall_forall in Hx. by apply Hx.
Qed.

Lemma labels_sorted (r : Resampler.rule) (lo n : Z) :
  StronglySorted Z.le ((λ b, b * Resampler.freq r) <$> seqZ lo n).
Proof.
  pose proof (freq_pos r) as Hf.
  destruct (decide (n ≤ 0)) as [Hn|Hn]; [rewrite seqZ_nil by done; constructor|].
  rewrite <-(Z2Nat.id n) by lia. generalize (Z.to_nat n) as len. clear Hn.
  intros len. revert lo. induction len as [|len IH]; intros lo.
  - rewrite seqZ_nil by done. constructor.
  - rewrite seqZ_cons by lia. rewrite fmap_cons.
    replace (Z.pred (Z.of_nat (S len))) with (Z.of_nat len) by lia.
    constructor; [apply IH|]. apply Forall_forall.
    intros t (b & -> & Hb%elem_of_seqZ)%list_elem_of_fmap. nia.
Qed.

Lemma labels_NoDup (r : Resampler.rule) (lo n : Z) :
  NoDup ((λ b, b * Resampler.freq r) <$> seqZ lo n).
Proof.
  apply NoDup_fmap_2; [|apply NoDup_seqZ]. intros b b'. apply label_inj.
Qed.

Lemma labels_overlap (r : Resampler.rule) (lo hi lo' hi' : Z) :
  filter (λ t, t ∈ (λ b, b * Resampler.freq r) <$> seqZ lo' (hi' - lo' + 1))
    ((λ b, b * Resampler.freq r) <$> seqZ lo (hi - lo + 1))
  = (λ b, b * Resampler.freq r)
      <$> seqZ (Z.max lo lo') (Z.min hi hi' - Z.max lo lo' + 1).
Proof.
  apply (StronglySorted_unique Z.le).
  - apply StronglySorted_filter, labels_sorted.
  - apply labels_sorted.
  - apply NoDup_Permutation.
    + apply NoDup_filter, labels_NoDup.
    + apply labels_NoDup.
    + intros t. rewrite list_elem_of_filter, !list_elem_of_fmap. split.
      * intros [(b' & -> & Hb'%elem_of_seqZ) (b & Hb & Hin%elem_of_seqZ)].
        apply label_inj in Hb as <-. exists b'. split; [done|].
        apply elem_of_seqZ. lia.
      * intros (b & -> & Hb%elem_of_seqZ). split; exists b;
          (split; [done|apply elem_of_seqZ; lia]).
Qed.

(** X7: no extrapolation, in numbers: when both tables have rows, the
    joined table has exactly the buckets from the later of the two first
    buckets to the earlier of the two last buckets, in increasing order,
    and none when the two ranges do not meet; [lo .. hi] and [lo' .. hi']
    are the bucket ranges of the base records and of the external
    records. *)
Theorem join_inner_covers_overlap (r : Resampler.rule)
    (df : list Resampler.Row) (ncols : nat) (ext : list Resampler.ExtRow) :
  df ≠ [] → ext ≠ [] →
  ∃ lo hi lo' hi',
    (∃ x, x ∈ df ∧ Resampler.bucket r (Resampler.datetime x) = lo)
    ∧ (∃ x, x ∈ df ∧ Resampler.bucket r (Resampler.datetime x) = hi)
    ∧ (∀ x, x ∈ df → lo ≤ Resampler.bucket r (Resampler.datetime x) ≤ hi)
    ∧ (∃ x, x ∈ ext ∧ Resampler.bucket r (Resampler.ext_time x) = lo')
    ∧ (∃ x, x ∈ ext ∧ Resampler.bucket r (Resampler.ext_time x) = hi')
    ∧ (∀ x, x ∈ ext → lo' ≤ Resampler.bucket r (Resampler.ext_time x) ≤ hi')
    ∧ (Resampler.join_inner (Resampler.base r df)
         (Resampler.ext_r ncols r ext)).*1
      = (λ b, b * Resampler.freq r)
          <$> seqZ (Z.max lo lo') (Z.min hi hi' - Z.max lo lo' + 1)
    ∧ length (Resampler.join_inner (Resampler.base r df)
                (Resampler.ext_r ncols r ext))
      = Z.to_nat (Z.min hi hi' - Z.max lo lo' + 1).
Proof.
  intros Hdf Hext.
  destruct (proj2 (resample_grid_span Resampler.datetime Resampler.agg_base
              r df) Hdf) as (lo & hi & Hb & _ & _ & Hlo & Hhi & Hall).
  destruct (proj2 (resample_grid_span Resampler.ext_time
              (Resampler.agg_ext ncols) r ext) Hext)
    as (lo' & hi' & He & _ & _ & Hlo' & Hhi' & Hall').
  exists lo, hi, lo', hi'. do 6 (split; [done|]).
  assert ((Resampler.join_inner (Resampler.base r df)
             (Resampler.ext_r ncols r ext)).*1
          = (λ b, b * Resampler.freq r)
              <$> seqZ (Z.max lo lo') (Z.min hi hi' - Z.max lo lo' + 1))
    as Hkeys.
  { rewrite join_inner_keys by apply resample_NoDup.
    unfold Resampler.base, Resampler.ext_r. rewrite Hb, He.
    apply labels_overlap. }
  split; [done|].
  rewrite <-(length_fmap fst), Hkeys, length_fmap. apply length_seqZ.
Qed.

Lemma join_inner_covers_overlap_witness :
  ∃ lo hi lo' hi',
    length (Resampler.join_inner
              (Resampler.base Resampler.H
                 [Resampler.mkRow (hours 0) None None None;
                  Resampler.mkRow (hours 9) None None None])
              (Resampler.ext_r 0 Resampler.H
                 [Resampler.mkExt (hours 5) [];
                  Resampler.mkExt (hours 20) []]))
    = Z.to_nat (Z.min hi hi' - Z.max lo lo' + 1).
Proof.
  destruct (join_inner_covers_overlap Resampler.H
    [Resampler.mkRow (hours 0) None None None;
     Resampler.mkRow (hours 9) None None None] 0
    [Resampler.mkExt (hours 5) []; Resampler.mkExt (hours 20) []]
    ltac:(discriminate) ltac:(discriminate))
    as (lo & hi & lo' & hi' & _ & _ & _ & _ & _ & _ & _ & Hlen).
  exists lo, hi, lo', hi'. exact Hlen.
Defined.

(** ** Forward fill *)

Lemma ffill_from_lookup_Some (prev : option Q) (s : list (option Q))
    (i : nat) (v : Q) :
  s !! i = Some (Some v) → Resampler.ffill_from prev s !! i = Some (Some v).
Proof.
  revert prev i. induction s as [|c s IH]; intros prev [|i] Hi;
    simplify_eq/=; [done|]. by apply IH.
Qed.

Lemma ffill_from_Some_prev (w : Q) (s : list (option Q)) (j : nat) :
  (j < length s)%nat →
  ∃ u, Resampler.ffill_from (Some w) s !! j = Some (Some u).
Proof.
  revert w j. induction s as [|c s IH]; intros w j Hj; simpl in *; [lia|].
  destruct j as [|j]; simpl.
  - destruct c; eauto.
  - destruct c as [v|]; apply IH; lia.
Qed.

Lemma ffill_from_idemp (prev : option Q) (s : list (option Q)) :
  Resampler.ffill_from prev (Resampler.ffill_from prev s)
  = Resampler.ffill_from prev s.
Proof.
  revert prev. induction s as [|c s IH]; intros prev; simpl; [done|].
  destruct c as [v|]; simpl.
  - by rewrite IH.
  - destruct prev as [w|]; simpl; by rewrite IH.
Qed.

(** X8: forward filling keeps the length of the series and every number
    where it is, leaves no missing value after the first number, leaves
    the missing values before the first number missing, and filling twice
    is filling once. *)
Theorem ffill_fills_after_first_number (s : list (option Q)) :
  length (Resampler.ffill s) = length s
  ∧ (∀ i v, s !! i = Some (Some v) →
       Resampler.ffill s !! i = Some (Some v))
  ∧ (∀ i j v, s !! i = Some (Some v) → (i ≤ j < length s)%nat →
       ∃ u, Resampler.ffill s !! j = Some (Some u))
  ∧ (∀ j, (j < length s)%nat →
       (∀ i, (i ≤ j)%nat → s !! i = Some None) →
       Resampler.ffill s !! j = Some None)
  ∧ Resampler.ffill (Resampler.ffill s) = Resampler.ffill s.
Proof.
  unfold Resampler.ffill.
  split; [apply ffill_from_length|].
  split; [intros i v; apply ffill_from_lookup_Some|].
  split; [|split; [|apply ffill_from_idemp]].
  - generalize (@None Q) as prev. induction s as [|c s IH];
      intros prev i j v Hi [Hij Hj]; [done|].
    destruct i as [|i]; simplify_eq/=.
    + destruct j as [|j]; simpl; [eauto|]. apply ffill_from_Some_prev. lia.
    + destruct j as [|j]; [lia|]. simpl. eapply IH; [done|lia].
  - induction s as [|c s IH]; intros j Hj Hnone; simpl in *; [lia|].
    pose proof (Hnone 0%nat ltac:(lia)) as H0. simplify_eq/=.
    destruct j as [|j]; [done|]. simpl. apply IH; [lia|].
    intros i Hi. apply (Hnone (S i)). lia.
Qed.

Lemma ffill_fills_after_first_number_witness :
  ∃ u, Resampler.ffill [None; Some 4%Q; None; None] !! 3%nat
       = Some (Some u).
Proof.
  apply (proj1 (proj2 (proj2 (ffill_fills_after_first_number
           [None; Some 4%Q; None; None]))) 1%nat 3%nat 4%Q).
  - reflexivity.
  - simpl. lia.
Defined.

(** ** Sums are conserved by resampling *)

Lemma fold_left_Qplus_acc (l : list Q) (a : Q) :
  (fold_left Qplus l a == a + Qsum l)%Q.
Proof.
  unfold Qsum. revert a. induction l as [|x l IH]; intros a; simpl.
  - lra.
  - rewrite (IH (a + x)%Q), (IH (0 + x)%Q). lra.
Qed.

Lemma Qsum_cons (x : Q) (l : list Q) : (Qsum (x :: l) == x + Qsum l)%Q.
Proof.
  unfold Qsum at 1. simpl. rewrite fold_left_Qplus_acc. lra.
Qed.

Lemma Qsum_fmap_plus {A : Type} (f g : A → Q) (l : list A) :
  (Qsum ((λ b, f b + g b) <$> l) == Qsum (f <$> l) + Qsum (g <$> l))%Q.
Proof.
  induction l as [|b l IH]; [reflexivity|].
  rewrite !fmap_cons, !Qsum_cons, IH. lra.
Qed.

Lemma Qsum_fmap_ext {A : Type} (f g : A → Q) (l : list A) :
  (∀ b, b ∈ l → f b == g b)%Q → (Qsum (f <$> l) == Qsum (g <$> l))%Q.
Proof.
  induction l as [|b l IH]; intros Hfg; [reflexivity|].
  rewrite !fmap_cons, !Qsum_cons, IH, (Hfg b) by (by left || (intros; apply Hfg; by right)).
  reflexivity.
Qed.

Lemma Qsum_fmap_zero {A : Type} (l : list A) :
  (Qsum ((λ _, 0) <$> l) == 0)%Q.
Proof.
  induction l as [|b l IH]; [reflexivity|].
  rewrite fmap_cons, Qsum_cons, IH. lra.
Qed.

Lemma Qsum_indicator (b0 : Z) (w : Q) (l : list Z) :
  NoDup l → b0 ∈ l →
  (Qsum ((λ b, if decide (b0 = b) then w else 0) <$> l) == w)%Q.
Proof.
  induction 1 as [|b l Hb Hnd IH]; intros Hin; [by apply elem_of_nil in Hin|].
  rewrite fmap_cons, Qsum_cons. destruct (decide (b0 = b)) as [->|Hne].
  - rewrite Qsum_fmap_ext with (g := λ _, 0%Q).
    + rewrite Qsum_fmap_zero. lra.
    + intros b' Hb'. rewrite decide_False; [reflexivity|]. by intros <-.
  - rewrite IH; [lra|]. by apply elem_of_cons in Hin as [?|?].
Qed.

(** The total of a field: its numbers added up, NaN skipped. *)
Lemma total_cons (c : option Q) (s : list (option Q)) :
  (Qsum (dropna (c :: s)) == default 0 c + Qsum (dropna s))%Q.
Proof.
  destruct c as [v|]; unfold dropna; csimpl; [apply Qsum_cons|]. lra.
Qed.

Lemma total_Permutation {A : Type} (f : A → option Q) (l k : list A) :
  l ≡ₚ k → (Qsum (dropna (f <$> l)) == Qsum (dropna (f <$> k)))%Q.
Proof.
  induction 1 as [|x l k _ IH|x y l|l k m _ IH1 _ IH2].
  - reflexivity.
  - rewrite !fmap_cons, !total_cons, IH. reflexivity.
  - rewrite !fmap_cons, !total_cons. lra.
  - by rewrite IH1.
Qed.

Lemma total_by_bucket {A : Type} (time : A → Z) (f : A → option Q)
    (r : Resampler.rule) (buckets : list Z) (l : list A) :
  NoDup buckets →
  (∀ x, x ∈ l → Resampler.bucket r (time x) ∈ buckets) →
  (Qsum ((λ b, Qsum (dropna (f <$> filter (Resampler.in_bucket time r b) l)))
           <$> buckets)
   == Qsum (dropna (f <$> l)))%Q.
Proof.
  intros Hnd. induction l as [|x l IH]; intros Hin.
  - apply Qsum_fmap_zero.
  - rewrite fmap_cons, total_cons, <-IH by (intros; apply Hin; by right).
    rewrite <-(Qsum_indicator (Resampler.bucket r (time x)) (default 0%Q (f x))
                 buckets Hnd) by (apply Hin; left).
    rewrite <-Qsum_fmap_plus. apply Qsum_fmap_ext. intros b _.
    rewrite filter_cons. unfold Resampler.in_bucket at 1.
    destruct (decide (Resampler.bucket r (time x) = b)) as [Hb|Hb].
    + rewrite fmap_cons, total_cons. reflexivity.
    + lra.
Qed.

(** X9: summing conserves the total of what is resampled: on the base grid
    every bucket has an incident count (never a missing value), and the
    counts of all buckets add up to the incident total of the records
    resampled, which are the rows with a timestamp (a row without one is in
    no bucket, so its incidents are in no count). *)
Theorem base_incidents_total (r : Resampler.rule) (df : list Resampler.Row) :
  (∀ t p, (t, p) ∈ Resampler.base r df →
     ∃ v, Resampler.base_incidents p = Some v)
  ∧ (Qsum (dropna ((λ tp, Resampler.base_incidents tp.2)
                     <$> Resampler.base r df))
     == Qsum (dropna (Resampler.incidents <$> df)))%Q.
Proof.
  split.
  { intros t p (b & _ & ->)%resample_elem_of_inv. by eexists. }
  destruct (decide (df = [])) as [->|Hdf]; [reflexivity|].
  unfold Resampler.base.
  destruct (resample_span Resampler.datetime Resampler.agg_base r df Hdf)
    as (lo & hi & -> & _ & _ & _ & Hall).
  rewrite <-list_fmap_compose.
  rewrite <-(total_Permutation Resampler.incidents _ df
               (stable_sort_perm (λ x y, Resampler.datetime x
                                         <=? Resampler.datetime y) df)).
  fold (Resampler.sort_index Resampler.datetime df).
  rewrite <-(total_by_bucket Resampler.datetime Resampler.incidents r
               (seqZ lo (hi - lo + 1))) by
    (apply NoDup_seqZ || (intros x Hx%stable_sort_elem_of;
                           apply elem_of_seqZ; specialize (Hall x Hx); lia)).
  generalize (seqZ lo (hi - lo + 1)) as buckets.
  induction buckets as [|b buckets IH]; [reflexivity|].
  rewrite !fmap_cons, total_cons, Qsum_cons, IH. reflexivity.
Qed.

(** ** Rolling aggregates, continued *)

Lemma rolling_length (w : nat) (agg : list Q → option Q)
    (s : list (option Q)) :
  length (Rolling.rolling w agg s) = length s.
Proof. unfold Rolling.rolling. by rewrite length_fmap, length_seq. Qed.

Lemma rolling_lookup (w : nat) (agg : list Q → option Q)
    (s : list (option Q)) (i : nat) :
  (i < length s)%nat →
  Rolling.rolling w agg s !! i = Some (agg (dropna (Rolling.window w i s))).
Proof.
  intros Hi. unfold Rolling.rolling.
  by rewrite list_lookup_fmap, lookup_seq_lt.
Qed.

(** X10: each of the four aggregates offered by the select box (mean, sum,
    std, abs_sum) gives a rolling series aligned with the residual: one
    cell per residual cell. *)
Theorem resid_roll_aligned (sqrt : Q → Q)
    (rolling_attr : string → nat → list (option Q)
                    → option (list (option Q)))
    (roll_stat : string) (roll_h : nat) (resid : list (option Q)) :
  roll_stat ∈ ["mean"; "sum"; "std"; "abs_sum"] →
  ∃ out, Rolling.resid_roll sqrt rolling_attr roll_stat roll_h resid
         = Some out
         ∧ length out = length resid.
Proof.
  unfold Rolling.resid_roll, Rolling.getattr_rolling.
  intros Hin. repeat (apply elem_of_cons in Hin as [->|Hin]);
    [simpl; eexists; split; [reflexivity|]..|by apply elem_of_nil in Hin];
    rewrite rolling_length; [done..|apply abs_length].
Qed.

Lemma resid_roll_aligned_witness :
  ∃ out, Rolling.resid_roll (λ x, x) (λ _ _ _, None) "std" 3
           [Some 1; None; Some 2]%Q
         = Some out
         ∧ length out = 3%nat.
Proof.
  apply (resid_roll_aligned (λ x, x) (λ _ _ _, None) "std" 3
           [Some 1; None; Some 2]%Q).
  do 2 right. left.
Defined.

Lemma Qabs_Qsum (vs : list Q) : (Qabs (Qsum vs) <= Qsum (Qabs <$> vs))%Q.
Proof.
  induction vs as [|v vs IH]; [done|].
  rewrite fmap_cons, !Qsum_cons.
  eapply Qle_trans; [apply Qabs_triangle|].
  apply Qplus_le_r, IH.
Qed.

(** X11: at every position the absolute value of the rolling sum is at
    most the rolling [abs_sum], and the two are missing at the same
    positions. *)
Theorem abs_sum_dominates_sum (sqrt : Q → Q)
    (rolling_attr : string → nat → list (option Q)
                    → option (list (option Q)))
    (roll_h : nat) (resid : list (option Q)) :
  ∃ sums abs_sums,
    Rolling.resid_roll sqrt rolling_attr "sum" roll_h resid = Some sums
    ∧ Rolling.resid_roll sqrt rolling_attr "abs_sum" roll_h resid
      = Some abs_sums
    ∧ Forall2 (λ s a : option Q,
                 match s, a with
                 | Some x, Some y => (Qabs x <= y)%Q
                 | None, None => True
                 | _, _ => False
                 end) sums abs_sums.
Proof.
  eexists _, _. split; [reflexivity|]. split; [reflexivity|].
  unfold Rolling.rolling. rewrite abs_length.
  apply Forall2_fmap, Forall_Forall2_diag, Forall_forall. intros i _.
  rewrite window_abs, dropna_abs.
  destruct (dropna (Rolling.window roll_h i resid)) as [|v vs] eqn:Hw;
    [done|].
  unfold Rolling.roll_sum. rewrite fmap_cons. apply Qabs_Qsum.
Qed.

(** ** Moving averages *)

Lemma Qsum_bounds (a b : Q) (vs : list Q) :
  Forall (λ v, a <= v <= b)%Q vs →
  (inject_Z (Z.of_nat (length vs)) * a <= Qsum vs
   <= inject_Z (Z.of_nat (length vs)) * b)%Q.
Proof.
  induction 1 as [|v vs [Hlo Hhi] _ IH].
  - change (inject_Z (Z.of_nat (@length Q []))) with 0%Q.
    change (Qsum []) with 0%Q. lra.
  - rewrite Qsum_cons.
    replace (Z.of_nat (length (v :: vs))) with (Z.of_nat (length vs) + 1)
      by (simpl; lia).
    rewrite inject_Z_plus. change (inject_Z 1) with 1%Q. lra.
Qed.

Lemma roll_mean_bounds (a b m : Q) (vs : list Q) :
  Forall (λ v, a <= v <= b)%Q vs →
  Rolling.roll_mean vs = Some m → (a <= m <= b)%Q.
Proof.
  intros Hvs Hm. destruct vs as [|v vs]; [done|].
  injection Hm as <-. unfold Qmean.
  pose proof (Qsum_bounds a b (v :: vs) Hvs) as [Hlo Hhi].
  set (n := inject_Z (Z.of_nat (length (v :: vs)))) in *.
  assert (0 < n)%Q as Hn.
  { unfold n. change 0%Q with (inject_Z 0). rewrite <-Zlt_Qlt. simpl. lia. }
  split.
  - apply Qle_shift_div_l; [done|]. lra.
  - apply Qle_shift_div_r; [done|]. lra.
Qed.

Lemma dropna_elem_of (s : list (option Q)) (v : Q) :
  v ∈ dropna s ↔ Some v ∈ s.
Proof.
  unfold dropna. rewrite list_elem_of_omap. split.
  - intros (c & Hc & Heq). unfold id in Heq. by subst.
  - intros Hv. by exists (Some v).
Qed.

(** X12: the moving average of the volume has one cell per grid point; a
    cell is missing exactly when its window holds no number, so it is a
    number wherever the volume itself is; and it lies between any two
    bounds that enclose the numbers of its window. *)
Theorem vol_ma_smooths (r : Resampler.rule) (df_f : list Resampler.Row) :
  length (Smoothing.vol_ma r df_f) = length (Resampler.ts r df_f)
  ∧ (∀ i, (i < length (Resampler.ts r df_f))%nat →
       (Smoothing.vol_ma r df_f !! i = Some None
        ↔ dropna (Rolling.window (Smoothing.w r df_f) i
                    ((λ tp, Resampler.ts_volume tp.2)
                       <$> Resampler.ts r df_f)) = []))
  ∧ (∀ i tp v, Resampler.ts r df_f !! i = Some tp →
       Resampler.ts_volume tp.2 = Some v →
       ∃ m, Smoothing.vol_ma r df_f !! i = Some (Some m))
  ∧ (∀ i a b m,
       Forall (λ v, a <= v <= b)%Q
         (dropna (Rolling.window (Smoothing.w r df_f) i
                    ((λ tp, Resampler.ts_volume tp.2)
                       <$> Resampler.ts r df_f))) →
       Smoothing.vol_ma r df_f !! i = Some (Some m) →
       (a <= m <= b)%Q).
Proof.
  unfold Smoothing.vol_ma.
  set (vol := (λ tp, Resampler.ts_volume tp.2) <$> Resampler.ts r df_f).
  assert (length vol = length (Resampler.ts r df_f)) as Hlen
    by apply length_fmap.
  split; [by rewrite rolling_length|]. split; [|split].
  - intros i Hi. rewrite rolling_lookup by lia.
    destruct (dropna _) as [|v vs]; simpl; split; done.
  - intros i tp v Htp Hv.
    assert (i < length vol)%nat as Hi.
    { rewrite Hlen. by eapply lookup_lt_Some. }
    rewrite rolling_lookup by done.
    assert (v ∈ dropna (Rolling.window (Smoothing.w r df_f) i vol)) as Hin.
    { apply dropna_elem_of. unfold Rolling.window. cbv zeta.
      assert (1 ≤ Smoothing.w r df_f)%nat as Hw.
      { unfold Smoothing.w, Windows._win. lia. }
      apply list_elem_of_lookup.
      exists (i - (i + 1 - Smoothing.w r df_f))%nat.
      rewrite lookup_take_lt by lia. rewrite lookup_drop.
      replace (i + 1 - Smoothing.w r df_f
               + (i - (i + 1 - Smoothing.w r df_f)))%nat with i by lia.
      unfold vol. by rewrite list_lookup_fmap, Htp; simpl; rewrite Hv. }
    destruct (dropna _) as [|v' vs]; [by apply elem_of_nil in Hin|].
    by eexists.
  - intros i a b m Hwin Hm.
    assert (i < length vol)%nat as Hi.
    { apply lookup_lt_Some in Hm. by rewrite rolling_length in Hm. }
    rewrite rolling_lookup in Hm by done. injection Hm as Hm.
    by eapply roll_mean_bounds.
Qed.

Lemma vol_ma_smooths_witness :
  ∃ m, Smoothing.vol_ma Resampler.H
         [Resampler.mkRow (hours 0) (Some 4%Q) None None;
          Resampler.mkRow (hours 2) (Some 8%Q) None None] !! 2%nat
       = Some (Some m).
Proof.
  apply (proj1 (proj2 (proj2 (vol_ma_smooths Resampler.H
    [Resampler.mkRow (hours 0) (Some 4%Q) None None;
     Resampler.mkRow (hours 2) (Some 8%Q) None None]))) 2%nat
    (hours 2, Resampler.mkTs (Some 8%Q) None) 8%Q).
  - vm_compute. reflexivity.
  - reflexivity.
Defined.

(** ** The first marks are the extremes *)

Lemma sorted_high (s : list (option Q)) :
  StronglySorted Extremes.ranks_high
    (stable_sort (λ a b : nat * Q, Qle_bool b.2 a.2) (Extremes.entries s)).
Proof.
  apply stable_sort_ranked
    with (earlier := λ a b : nat * Q, (a.1 < b.1)%nat).
  - apply ranks_high_trans.
  - intros a b Hb Hpos. apply Qle_bool_iff, Qle_lteq in Hb as [?|Heq].
    + by left.
    + right. split; [by symmetry|done].
  - intros a b Hb. left. by apply Qle_bool_false.
  - apply entries_from_increasing.
Qed.

Lemma sorted_low (s : list (option Q)) :
  StronglySorted Extremes.ranks_low
    (stable_sort (λ a b : nat * Q, Qle_bool a.2 b.2) (Extremes.entries s)).
Proof.
  apply stable_sort_ranked
    with (earlier := λ a b : nat * Q, (a.1 < b.1)%nat).
  - apply ranks_low_trans.
  - intros a b Hb Hpos. apply Qle_bool_iff, Qle_lteq in Hb as [?|Heq].
    + by left.
    + by right.
  - intros a b Hb. left. by apply Qle_bool_false.
  - apply entries_from_increasing.
Qed.

Lemma sorted_head_extreme (ranks : nat * Q → nat * Q → Prop)
    (before : nat * Q → nat * Q → bool) (s : list (option Q)) (n : nat) :
  StronglySorted ranks (stable_sort before (Extremes.entries s)) →
  (0 < n)%nat → dropna s ≠ [] →
  ∃ e rest,
    take n (stable_sort before (Extremes.entries s)) = e :: rest
    ∧ s !! e.1 = Some (Some e.2)
    ∧ ∀ v, v ∈ dropna s → ∃ i, e = (i, v) ∨ ranks e (i, v).
Proof.
  intros Hsorted Hn Hsome.
  pose proof (stable_sort_length before (Extremes.entries s)) as Hlen.
  unfold Extremes.entries in Hlen at 2. rewrite entries_from_length in Hlen.
  pose proof (stable_sort_elem_of before (Extremes.entries s)) as Hin.
  destruct (stable_sort before (Extremes.entries s)) as [|e sorted].
  { destruct (dropna s); [done|discriminate]. }
  destruct n as [|n]; [lia|]. exists e, (take n sorted).
  split; [done|]. split.
  - apply entries_elem_of. rewrite <-surjective_pairing. apply Hin. left.
  - intros v (i & Hi)%dropna_elem_of%list_elem_of_lookup.
    exists i. apply entries_elem_of, Hin in Hi.
    apply elem_of_cons in Hi as [->|Hi]; [by left|right].
    apply StronglySorted_inv in Hsorted as [_ Hall].
    rewrite Forall_forall in Hall. by apply Hall.
Qed.

(** X13: when at least one mark is asked for and the series has a number,
    the first high is the largest number of the series and the first low
    the smallest, each reported at a position where the series holds it;
    and there are as many highs as lows. *)
Theorem mark_first_is_extreme (s : list (option Q)) (n : Z) :
  0 < n → dropna s ≠ [] →
  ∃ hi highs lo lows,
    Extremes._mark s n
    = (Extremes.number hi :: highs, Extremes.number lo :: lows)
    ∧ s !! hi.1 = Some (Some hi.2)
    ∧ s !! lo.1 = Some (Some lo.2)
    ∧ (∀ v, v ∈ dropna s → (lo.2 <= v <= hi.2)%Q)
    ∧ length highs = length lows.
Proof.
  intros Hn Hsome. unfold Extremes._mark.
  rewrite (proj2 (Z.leb_gt n 0) Hn), bool_decide_false by done. simpl.
  unfold Extremes.nlargest, Extremes.nsmallest.
  rewrite !take_ranked_padded.
  destruct (sorted_head_extreme _ _ s (Z.to_nat n) (sorted_high s)
              ltac:(lia) Hsome) as (hi & highs & Hhi & Hhi_in & Hmax).
  destruct (sorted_head_extreme _ _ s (Z.to_nat n) (sorted_low s)
              ltac:(lia) Hsome) as (lo & lows & Hlo & Hlo_in & Hmin).
  assert (length (hi :: highs) = length (lo :: lows)) as Hlen.
  { by rewrite <-Hhi, <-Hlo, !length_take, !stable_sort_length. }
  rewrite Hhi, Hlo, !fmap_cons. eexists hi, _, lo, _.
  split; [reflexivity|]. split; [done|]. split; [done|]. split.
  - intros v Hv. split.
    + destruct (Hmin v Hv) as (i & [->|[Hlt|[Heq _]]]); simpl in *;
        [apply Qle_refl|by apply Qlt_le_weak|by rewrite Heq; apply Qle_refl].
    + destruct (Hmax v Hv) as (i & [->|[Hlt|[Heq _]]]); simpl in *;
        [apply Qle_refl|by apply Qlt_le_weak|by rewrite Heq; apply Qle_refl].
  - rewrite !length_app, !length_fmap. simpl in Hlen. lia.
Qed.

Lemma mark_first_is_extreme_witness :
  ∃ hi highs lo lows,
    Extremes._mark [Some 3; None; Some 5; Some 1]%Q 2
    = (Extremes.number hi :: highs, Extremes.number lo :: lows)
    ∧ length highs = length lows.
Proof.
  destruct (mark_first_is_extreme [Some 3; None; Some 5; Some 1]%Q 2
              ltac:(reflexivity) ltac:(discriminate))
    as (hi & highs & lo & lows & Hmark & _ & _ & _ & Hlen).
  exists hi, highs, lo, lows. split; [exact Hmark|exact Hlen].
Defined.

(** ** Derived time fields *)

Lemma is_weekend_day_type (d : Z) :
  0 ≤ d < 7 →
  (TimeFields.is_weekend d = 1 ↔ TimeFields.day_type d = TimeFields.weekend)
  ∧ (TimeFields.is_weekend d = 0
     ↔ TimeFields.day_type d = TimeFields.weekday).
Proof.
  intros Hd.
  assert (d = 0 ∨ d = 1 ∨ d = 2 ∨ d = 3 ∨ d = 4 ∨ d = 5 ∨ d = 6)
    as [->|[->|[->|[->|[->|[->| ->]]]]]] by lia;
    vm_compute; repeat split; intros; done.
Qed.

(** X14: the hour of a timestamp lies in 0..23 and its day of week in
    0..6; the weekend flag of the loader and the day type of the trend tab
    agree (flag 1 exactly for the weekend label); records of one hourly
    bucket share hour and day of week, records of one daily bucket share
    the day of week; the hour repeats every 24 hours and the day of week
    every 7 days. *)
Theorem time_fields_consistent (t u : Z) :
  0 ≤ TimeFields.hour t < 24
  ∧ 0 ≤ TimeFields.dayofweek t < 7
  ∧ (TimeFields.is_weekend (TimeFields.dayofweek t) = 1
     ↔ TimeFields.day_type (TimeFields.dayofweek t) = TimeFields.weekend)
  ∧ (TimeFields.is_weekend (TimeFields.dayofweek t) = 0
     ↔ TimeFields.day_type (TimeFields.dayofweek t) = TimeFields.weekday)
  ∧ (Resampler.bucket Resampler.H t = Resampler.bucket Resampler.H u →
     TimeFields.hour t = TimeFields.hour u
     ∧ TimeFields.dayofweek t = TimeFields.dayofweek u)
  ∧ (Resampler.bucket Resampler.D t = Resampler.bucket Resampler.D u →
     TimeFields.dayofweek t = TimeFields.dayofweek u)
  ∧ TimeFields.hour (t + hours 24) = TimeFields.hour t
  ∧ TimeFields.dayofweek (t + hours (24 * 7)) = TimeFields.dayofweek t.
Proof.
  assert (∀ x, x / (86400 * 1000000000) = x / (3600 * 1000000000) / 24)
    as Hday.
  { intros x. rewrite Z.div_div by lia. reflexivity. }
  pose proof (Z.mod_pos_bound (t / (86400 * 1000000000) + 3) 7 ltac:(lia))
    as Hdow.
  split; [apply Z.mod_pos_bound; lia|]. split; [exact Hdow|].
  fold (TimeFields.dayofweek t) in Hdow.
  split; [|split; [|split; [|split; [|split]]]].
  - by apply is_weekend_day_type.
  - by apply is_weekend_day_type.
  - unfold Resampler.bucket, Resampler.freq, TimeFields.hour,
      TimeFields.dayofweek. intros Hb. by rewrite !Hday, Hb.
  - unfold Resampler.bucket, Resampler.freq, TimeFields.dayofweek.
    by intros ->.
  - unfold TimeFields.hour, hours.
    replace (t + 24 * 3600 * 1000000000)
      with (t + 24 * (3600 * 1000000000)) by lia.
    rewrite Z.div_add by lia.
    replace (t / (3600 * 1000000000) + 24)
      with (t / (3600 * 1000000000) + 1 * 24) by lia.
    by rewrite Z.mod_add by lia.
  - unfold TimeFields.dayofweek, hours.
    replace (t + 24 * 7 * 3600 * 1000000000)
      with (t + 7 * (86400 * 1000000000)) by lia.
    rewrite Z.div_add by lia.
    replace (t / (86400 * 1000000000) + 7 + 3)
      with (t / (86400 * 1000000000) + 3 + 1 * 7) by lia.
    by rewrite Z.mod_add by lia.
Qed.

Lemma time_fields_consistent_witness :
  TimeFields.hour (hours 30 + 5) = TimeFields.hour (hours 30 + 77)
  ∧ TimeFields.dayofweek (hours 30 + 5) = TimeFields.dayofweek (hours 30 + 77).
Proof.
  apply (proj1 (proj2 (proj2 (proj2 (proj2
           (time_fields_consistent (hours 30 + 5) (hours 30 + 77))))))).
  vm_compute. reflexivity.
Defined.

(** ** Month selection *)

(** X15: the month number of a month name is its calendar number: every
    name of the list gets a number from 1 to 12 that leads back to it, the
    name at position i gets i + 1, and a name that is not a month gets
    none. *)
Theorem month_num_round_trip (name : string) :
  (name ∈ Months.month_names →
   ∃ k, Months.month_num name = Some k
        ∧ 1 ≤ k ≤ 12
        ∧ Months.month_names !! Z.to_nat (k - 1) = Some name)
  ∧ (∀ i, Months.month_names !! i = Some name →
       Months.month_num name = Some (Z.of_nat i + 1))
  ∧ (name ∉ Months.month_names → Months.month_num name = None).
Proof.
  split; [|split].
  - intros Hin. unfold Months.month_names in Hin.
    repeat (apply elem_of_cons in Hin as [->|Hin]);
      [eexists; split; [reflexivity|split; [lia|reflexivity]]..|
       by apply elem_of_nil in Hin].
  - intros i Hi. unfold Months.month_names in Hi.
    do 12 (destruct i as [|i]; [injection Hi as <-; reflexivity|]).
    done.
  - intros Hout. unfold Months.month_num, Months.month_names in *.
    assert (∀ l, name ∉ l → Months.index name l = None) as Hindex.
    { induction l as [|y l IH]; intros Hl; simpl; [done|].
      destruct (String.eqb_spec y name) as [->|_].
      - exfalso. apply Hl. left.
      - rewrite IH; [done|]. intros ?. apply Hl. by right. }
    by rewrite Hindex.
Qed.

Lemma month_num_round_trip_witness :
  ∃ k, Months.month_num "March" = Some k
       ∧ 1 ≤ k ≤ 12
       ∧ Months.month_names !! Z.to_nat (k - 1) = Some "March".
Proof.
  apply (proj1 (month_num_round_trip "March")). do 2 right. left.
Defined.

(** ** Clipping to the quantile range *)

Section ClipFacts.
Import Winsorize.

Lemma Qmin_cases (l u : Q) : Qmin l u = l ∨ Qmin l u = u.
Proof.
  unfold Qmin, GenericMinMax.gmin. destruct (l ?= u)%Q; auto.
Qed.

Lemma Qmax_cases (l u : Q) : Qmax l u = l ∨ Qmax l u = u.
Proof.
  unfold Qmax, GenericMinMax.gmax. destruct (l ?= u)%Q; auto.
Qed.

Lemma Qmin_le_Qmax (l u : Q) : (Qmin l u <= Qmax l u)%Q.
Proof.
  eapply Qle_trans; [apply Q.le_min_l|apply Q.le_max_l].
Qed.

Lemma clip_cell_between (l u v : Q) :
  (l <= u)%Q →
  ∃ v', clip_cell (Some l) (Some u) (Some v) = Some v'
        ∧ (l <= v' <= u)%Q
        ∧ ((l <= v <= u)%Q → v' = v)
        ∧ ((v < l)%Q → v' = l)
        ∧ ((u < v)%Q → v' = u).
Proof.
  intros Hlu. unfold clip_cell; simpl.
  destruct (Qle_bool l v) eqn:Hlv.
  - apply Qle_bool_iff in Hlv. destruct (Qle_bool v u) eqn:Hvu.
    + apply Qle_bool_iff in Hvu. eexists. split; [done|].
      repeat split; try done; intros; lra.
    + apply Qle_bool_false in Hvu. eexists. split; [done|].
      repeat split; try done; try lra; intros; lra.
  - apply Qle_bool_false in Hlv.
    rewrite (proj2 (Qle_bool_iff l u) Hlu). eexists. split; [done|].
    repeat split; try done; try lra; intros; lra.
Qed.

Lemma clip_cell_preserves (P : Q → Prop) (lower upper : option Q)
    (v v' : Q) :
  (∀ l, lower = Some l → P l) → (∀ u, upper = Some u → P u) → P v →
  clip_cell lower upper (Some v) = Some v' → P v'.
Proof.
  intros Hl Hu Hv. unfold clip_cell; simpl.
  destruct lower as [l|], upper as [u|]; simpl;
    repeat match goal with |- context [Qle_bool ?a ?b] =>
      destruct (Qle_bool a b) end;
    intros [= <-]; eauto.
Qed.

Lemma nth_preserves (P : Q → Prop) (i : nat) (vs : list Q) (d : Q) :
  Forall P vs → P d → P (nth i vs d).
Proof.
  intros Hvs Hd. destruct (nth_in_or_default i vs d) as [Hin| ->]; [|done].
  rewrite Forall_forall in Hvs. by apply Hvs, list_elem_of_In.
Qed.

(** A quantile is a convex combination of two numbers of the column. *)
Lemma quantile_sorted_preserves (P : Q → Prop) (vs : list Q) (q x : Q) :
  (∀ a b f, P a → P b → (0 <= f <= 1)%Q → P (a + (b - a) * f)%Q) →
  Forall P vs →
  quantile_sorted vs q = Some x → P x.
Proof.
  intros Hconv Hvs. unfold quantile_sorted.
  destruct vs as [|v0 vs'] eqn:Heq; [done|]. rewrite <-Heq in *.
  intros [= <-].
  assert (P v0) by (rewrite Heq in Hvs; by apply Forall_cons in Hvs as [? _]).
  set (pos := (q * inject_Z (Z.of_nat (length vs) - 1))%Q).
  apply Hconv.
  - by apply nth_preserves.
  - apply nth_preserves; [done|]. by apply nth_preserves.
  - pose proof (Qfloor_le pos). pose proof (Qlt_floor pos) as Hlt.
    rewrite inject_Z_plus in Hlt. change (inject_Z 1) with 1%Q in Hlt.
    change (0 <= pos - inject_Z (Qfloor pos) <= 1)%Q.
    set (fl := inject_Z (Qfloor pos)) in *. clearbody fl pos.
    split; lra.
Qed.

Lemma convex_le (L a b f : Q) :
  (a <= L → b <= L → 0 <= f <= 1 → a + (b - a) * f <= L)%Q.
Proof.
  intros Ha Hb [Hf0 Hf1].
  assert (0 <= (L - a) * (1 - f))%Q by (apply Qmult_le_0_compat; lra).
  assert (0 <= (L - b) * f)%Q by (apply Qmult_le_0_compat; lra).
  lra.
Qed.

Lemma convex_ge (L a b f : Q) :
  (L <= a → L <= b → 0 <= f <= 1 → L <= a + (b - a) * f)%Q.
Proof.
  intros Ha Hb [Hf0 Hf1].
  assert (0 <= (a - L) * (1 - f))%Q by (apply Qmult_le_0_compat; lra).
  assert (0 <= (b - L) * f)%Q by (apply Qmult_le_0_compat; lra).
  lra.
Qed.

Lemma Forall_dropna (P : Q → Prop) (s : list (option Q)) :
  Forall P (dropna s) ↔ ∀ v, Some v ∈ s → P v.
Proof.
  rewrite Forall_forall. split.
  - intros H v Hv. by apply H, dropna_elem_of.
  - intros H v Hv. by apply H, dropna_elem_of.
Qed.

Lemma clip_to_quantiles_preserves (P : Q → Prop) (q : Q * Q)
    (s : list (option Q)) :
  (∀ a b f, P a → P b → (0 <= f <= 1)%Q → P (a + (b - a) * f)%Q) →
  Forall P (dropna s) → Forall P (dropna (clip_to_quantiles q s)).
Proof.
  intros Hconv Hs.
  assert (Forall P (stable_sort Qle_bool (dropna s))) as Hvs
    by (by rewrite stable_sort_perm).
  pose proof (λ x, quantile_sorted_preserves P _ q.1 x Hconv Hvs) as Hlo.
  pose proof (λ x, quantile_sorted_preserves P _ q.2 x Hconv Hvs) as Hhi.
  unfold clip_to_quantiles; cbv zeta.
  assert (∀ lower upper,
    (∀ l, lower = Some l → P l) → (∀ u, upper = Some u → P u) →
    Forall P (dropna (clip_cell lower upper <$> s))) as Hclip.
  { intros lower upper Hl Hu. apply Forall_dropna.
    intros v' (c & Hc & Hin)%list_elem_of_fmap.
    destruct c as [v|]; [|done].
    eapply clip_cell_preserves; [exact Hl|exact Hu| |done].
    by eapply Forall_dropna. }
  destruct (quantile_sorted _ q.1) as [l|], (quantile_sorted _ q.2) as [u|];
    apply Hclip; try done.
  - intros ? [= <-]. destruct (Qmin_cases l u) as [-> | ->]; eauto.
  - intros ? [= <-]. destruct (Qmax_cases l u) as [-> | ->]; eauto.
Qed.

End ClipFacts.

(** X16: what clipping to the quantile range means.  When the column has
    numbers, with quantiles [lo] and [hi]: the column keeps its length and
    its missing cells, every number ends up between the smaller and the
    larger of the two quantiles, a number already there is kept as it is,
    a smaller one becomes the lower bound and a larger one the upper
    bound.  A column without a number is returned as it is. *)
Theorem clip_to_quantiles_range (q : Q * Q) (s : list (option Q)) :
  length (Winsorize.clip_to_quantiles q s) = length s
  ∧ (∀ i, s !! i = Some None →
       Winsorize.clip_to_quantiles q s !! i = Some None)
  ∧ (∀ lo hi,
       Winsorize.quantile (Winsorize.NumCol s) q = inr (Some lo, Some hi) →
       ∀ i v, s !! i = Some (Some v) →
         ∃ v', Winsorize.clip_to_quantiles q s !! i = Some (Some v')
               ∧ (Qmin lo hi <= v' <= Qmax lo hi)%Q
               ∧ ((Qmin lo hi <= v <= Qmax lo hi)%Q → v' = v)
               ∧ ((v < Qmin lo hi)%Q → v' = Qmin lo hi)
               ∧ ((Qmax lo hi < v)%Q → v' = Qmax lo hi))
  ∧ (dropna s = [] → Winsorize.clip_to_quantiles q s = s).
Proof.
  unfold Winsorize.clip_to_quantiles, Winsorize.quantile; cbv zeta.
  split; [|split; [|split]].
  - destruct (Winsorize.quantile_sorted _ q.1),
      (Winsorize.quantile_sorted _ q.2); apply length_fmap.
  - intros i Hi.
    destruct (Winsorize.quantile_sorted _ q.1),
      (Winsorize.quantile_sorted _ q.2);
      by rewrite list_lookup_fmap, Hi.
  - intros lo hi Hq i v Hi.
    destruct (Winsorize.valid_q q.1 && Winsorize.valid_q q.2); [|done].
    injection Hq as -> ->.
    destruct (clip_cell_between (Qmin lo hi) (Qmax lo hi) v
                (Qmin_le_Qmax lo hi)) as (v' & Hv' & Hrest).
    exists v'. split; [|exact Hrest].
    rewrite list_lookup_fmap, Hi. simpl. f_equal. exact Hv'.
  - intros Hnone. rewrite Hnone. simpl.
    rewrite <-(list_fmap_id s) at 2. apply list_fmap_ext.
    intros _ [v|] _; [|done]. done.
Qed.

Lemma clip_to_quantiles_range_witness :
  ∃ v', Winsorize.clip_to_quantiles (1 # 4, 3 # 4)%Q
          [Some 0; Some 10; Some 20; None]%Q !! 0%nat = Some (Some v')
        ∧ (Qmin (20 # 4) (60 # 4) <= v' <= Qmax (20 # 4) (60 # 4))%Q.
Proof.
  destruct (proj1 (proj2 (proj2 (clip_to_quantiles_range (1 # 4, 3 # 4)%Q
              [Some 0; Some 10; Some 20; None]%Q))) (20 # 4)%Q (60 # 4)%Q) with
    (i := 0%nat) (v := 0%Q) as (v' & Hv' & Hrange & _).
  - vm_compute. reflexivity.
  - reflexivity.
  - exists v'. split; [exact Hv'|exact Hrange].
Defined.

(** ** Winsorizing stays within the data *)

Section WinsorizeRange.
Import Winsorize.
Implicit Types (σ : gmap positive (gmap string column))
  (fr : gmap string column) (q : Q * Q).

Lemma winsorize_run σ (frame : positive) fr (cols : list string) q :
  σ !! frame = Some fr →
  valid_q q.1 && valid_q q.2 = true →
  (∀ c col, c ∈ cols → fr !! c = Some col → is_numeric col) →
  winsorize frame cols q σ
  = inr (fresh (dom σ),
         <[fresh (dom σ) :=
             foldl (λ fr c, alter (on_numeric (clip_to_quantiles q)) c fr)
               fr cols]> σ).
Proof.
  intros Hframe Hq Hnum.
  unfold winsorize, bind at 1, copy. rewrite Hframe. unfold bind.
  rewrite (for_each_winsorize_column _ (fresh (dom σ)) fr q cols)
    by (done || apply lookup_insert_eq).
  unfold ret. by rewrite insert_insert_eq.
Qed.

Lemma clip_cell_Some (lower upper : option Q) (c : option Q) :
  clip_cell lower upper c = None ↔ c = None.
Proof.
  destruct c as [v|]; [|done]. unfold clip_cell; simpl. split; [|done].
  destruct lower, upper; simpl;
    repeat match goal with |- context [Qle_bool ?a ?b] =>
      destruct (Qle_bool a b) end; done.
Qed.

Lemma clip_to_quantiles_missing q (s : list (option Q)) (i : nat) :
  clip_to_quantiles q s !! i = Some None ↔ s !! i = Some None.
Proof.
  unfold clip_to_quantiles; cbv zeta.
  assert (∀ lower upper,
    (clip_cell lower upper <$> s) !! i = Some None ↔ s !! i = Some None)
    as Hclip.
  { intros lower upper. rewrite list_lookup_fmap.
    destruct (s !! i) as [c|]; simpl; [|done]. split.
    - intros [= Hc]. by apply clip_cell_Some in Hc as ->.
    - by intros [= ->]. }
  destruct (quantile_sorted _ q.1), (quantile_sorted _ q.2); apply Hclip.
Qed.

Lemma clip_to_quantiles_length q (s : list (option Q)) :
  length (clip_to_quantiles q s) = length s.
Proof.
  unfold clip_to_quantiles; cbv zeta.
  destruct (quantile_sorted _ q.1), (quantile_sorted _ q.2);
    apply length_fmap.
Qed.

Lemma interval_convex (a b x y f : Q) :
  (a <= x <= b → a <= y <= b → 0 <= f <= 1 → a <= x + (y - x) * f <= b)%Q.
Proof.
  intros [??] [??] ?. split; [by apply convex_ge|by apply convex_le].
Qed.

Lemma iter_clip_facts q (n : nat) (s : list (option Q)) :
  length (Nat.iter n (clip_to_quantiles q) s) = length s
  ∧ (∀ i, Nat.iter n (clip_to_quantiles q) s !! i = Some None
          ↔ s !! i = Some None)
  ∧ (∀ a b, Forall (λ v, a <= v <= b)%Q (dropna s) →
       Forall (λ v, a <= v <= b)%Q
         (dropna (Nat.iter n (clip_to_quantiles q) s))).
Proof.
  induction n as [|n (IHlen & IHnan & IHrange)]; simpl; [done|].
  split; [by rewrite clip_to_quantiles_length|]. split.
  - intros i. by rewrite clip_to_quantiles_missing.
  - intros a b Hs. apply clip_to_quantiles_preserves; [|by apply IHrange].
    intros x y f. apply interval_convex.
Qed.

Lemma iter_clip_bounded q (n : nat) (limit : Q) (s : list (option Q)) :
  Forall (λ v, v <= limit)%Q (dropna s) →
  Forall (λ v, v <= limit)%Q (dropna (Nat.iter n (clip_to_quantiles q) s)).
Proof.
  intros Hs. induction n as [|n IH]; simpl; [done|].
  apply clip_to_quantiles_preserves; [|done].
  intros a b f. apply convex_le.
Qed.

End WinsorizeRange.

(** X17: winsorizing never takes a column outside its own data: every
    numeric column of the input is a numeric column of the result, of the
    same length, missing at the same positions, and any two bounds that
    enclose the numbers of the input column enclose those of the result
    column. *)
Theorem winsorize_within_data_range
    (σ : gmap positive (gmap string Winsorize.column)) (frame : positive)
    (fr : gmap string Winsorize.column) (cols : list string) (q : Q * Q) :
  σ !! frame = Some fr →
  Winsorize.valid_q q.1 && Winsorize.valid_q q.2 = true →
  (∀ c col, c ∈ cols → fr !! c = Some col → Winsorize.is_numeric col) →
  ∃ df fr',
    Winsorize.winsorize frame cols q σ = inr (df, <[df := fr']> σ)
    ∧ ∀ c s, fr !! c = Some (Winsorize.NumCol s) →
        ∃ s', fr' !! c = Some (Winsorize.NumCol s')
              ∧ length s' = length s
              ∧ (∀ i, s' !! i = Some None ↔ s !! i = Some None)
              ∧ (∀ a b, Forall (λ v, a <= v <= b)%Q (dropna s) →
                   Forall (λ v, a <= v <= b)%Q (dropna s')).
Proof.
  intros Hframe Hq Hnum. eexists _, _.
  split; [by apply winsorize_run|].
  intros c s Hc. rewrite foldl_alter_lookup, Hc. simpl.
  eexists. split; [reflexivity|]. apply iter_clip_facts.
Qed.

Lemma winsorize_within_data_range_witness :
  ∃ df fr',
    Winsorize.winsorize 1%positive ["a"] (1 # 4, 3 # 4)%Q
      {[ 1%positive :=
           {[ "a" := Winsorize.NumCol [Some 0; Some 10; Some 20; None]%Q ]} ]}
    = inr (df, <[df := fr']>
                 {[ 1%positive :=
           {[ "a" := Winsorize.NumCol [Some 0; Some 10; Some 20; None]%Q ]} ]})
    ∧ ∃ s', fr' !! "a" = Some (Winsorize.NumCol s') ∧ length s' = 4%nat.
Proof.
  destruct (winsorize_within_data_range
    {[ 1%positive :=
         {[ "a" := Winsorize.NumCol [Some 0; Some 10; Some 20; None]%Q ]} ]}
    1%positive
    {[ "a" := Winsorize.NumCol [Some 0; Some 10; Some 20; None]%Q ]}
    ["a"] (1 # 4, 3 # 4)%Q)
    as (df & fr' & Hrun & Hcols).
  - reflexivity.
  - reflexivity.
  - intros c col Hc. apply list_elem_of_singleton in Hc as ->.
    vm_compute. by intros [= <-].
  - exists df, fr'. split; [exact Hrun|].
    destruct (Hcols "a" [Some 0; Some 10; Some 20; None]%Q eq_refl)
      as (s' & Hs' & Hlen & _).
    exists s'. split; [exact Hs'|exact Hlen].
Defined.

(** ** The data quality stage *)

Section GuardFacts.
Import Winsorize Guards.
Implicit Types (σ : gmap positive (gmap string column))
  (fr : gmap string column).

Lemma mask_above_bounded (limit : Z) (s : list (option Q)) :
  Forall (λ v, v <= inject_Z limit)%Q (dropna (mask_above limit s)).
Proof.
  apply Forall_dropna. intros v (c & Hc & _)%list_elem_of_fmap.
  destruct c as [w|]; [|done].
  destruct (Qle_bool w (inject_Z limit)) eqn:Hw; [|done].
  injection Hc as ->. by apply Qle_bool_iff.
Qed.

Lemma guard_column_run σ (_df : positive) fr (c : string) (limit : Z) :
  σ !! _df = Some fr →
  (∀ col, fr !! c = Some col → is_numeric col) →
  guard_column _df c limit σ
  = inr (tt, <[_df := alter (on_numeric (mask_above limit)) c fr]> σ).
Proof.
  intros Hdf Hnum.
  unfold guard_column, loc_set_nan_above, bind, has_column, getitem, setitem.
  rewrite Hdf. destruct (fr !! c) as [col|] eqn:Hc.
  - rewrite bool_decide_true by eauto. rewrite Hdf, Hc.
    destruct col as [s|s]; [|by destruct (Hnum _ eq_refl)].
    rewrite Hdf. do 3 f_equal. apply map_eq. intros c'.
    destruct (decide (c = c')) as [<-|Hne].
    + by rewrite lookup_insert_eq, lookup_alter_eq, Hc.
    + by rewrite lookup_insert_ne, lookup_alter_ne.
  - rewrite bool_decide_false by (by intros [??]).
    unfold ret. by rewrite alter_id', insert_id.
Qed.

Lemma alter_on_numeric_numeric (f : list (option Q) → list (option Q)) fr
    (c c' : string) (col : column) :
  (∀ col, fr !! c' = Some col → is_numeric col) →
  alter (on_numeric f) c fr !! c' = Some col → is_numeric col.
Proof.
  intros Hnum. destruct (decide (c = c')) as [<-|Hne].
  - rewrite lookup_alter_eq. destruct (fr !! c) as [[s|s]|] eqn:Hc; simpl;
      intros [= <-]; [done|]. by apply (Hnum (ObjCol s)).
  - rewrite lookup_alter_ne by done. apply Hnum.
Qed.

End GuardFacts.

(** X18: the data quality stage on a frame whose speed and volume columns
    are numeric.  The guards work in place: afterwards the caller's frame
    object holds the speed and volume columns with every number above its
    limit turned into a missing value.  With the robust view the stage
    returns a new frame object, without it the caller's own.  Either way,
    in the frame returned no speed exceeds the speed limit and no volume
    the volume limit, and every other column is the input's. *)
Theorem apply_guards_effect
    (σ : gmap positive (gmap string Winsorize.column)) (_df : positive)
    (fr : gmap string Winsorize.column) (max_speed max_volume : Z)
    (robust_view : bool) :
  σ !! _df = Some fr →
  (∀ c col, c ∈ ["traffic_volume"; "average_speed"] → fr !! c = Some col →
     Winsorize.is_numeric col) →
  ∃ df' σ' guarded fr',
    Guards.apply_guards _df max_speed max_volume robust_view σ
    = inr (df', σ')
    ∧ σ' !! _df = Some guarded
    ∧ σ' !! df' = Some fr'
    ∧ (∀ a, a ≠ _df → a ≠ df' → σ' !! a = σ !! a)
    ∧ (if robust_view then σ !! df' = None else df' = _df)
    ∧ guarded !! "average_speed"
      = Winsorize.on_numeric (Guards.mask_above max_speed)
          <$> fr !! "average_speed"
    ∧ guarded !! "traffic_volume"
      = Winsorize.on_numeric (Guards.mask_above max_volume)
          <$> fr !! "traffic_volume"
    ∧ (∀ c, c ∉ ["traffic_volume"; "average_speed"] →
         guarded !! c = fr !! c ∧ fr' !! c = fr !! c)
    ∧ (∀ col, fr' !! "average_speed" = Some col →
         Guards.bounded_above (inject_Z max_speed) col)
    ∧ (∀ col, fr' !! "traffic_volume" = Some col →
         Guards.bounded_above (inject_Z max_volume) col).
Proof.
  intros Hdf Hnum.
  set (g1 := alter (Winsorize.on_numeric (Guards.mask_above max_speed))
               "average_speed" fr).
  set (guarded := alter (Winsorize.on_numeric (Guards.mask_above max_volume))
                    "traffic_volume" g1).
  assert ("traffic_volume" ≠ "average_speed") as Hne by discriminate.
  assert (∀ c col, c ∈ ["traffic_volume"; "average_speed"] →
            guarded !! c = Some col → Winsorize.is_numeric col) as Hnum'.
  { intros c col Hc. apply alter_on_numeric_numeric.
    intros col'. apply alter_on_numeric_numeric. intros col''. by apply Hnum. }
  assert (guarded !! "average_speed"
          = Winsorize.on_numeric (Guards.mask_above max_speed)
              <$> fr !! "average_speed") as Hspd.
  { unfold guarded, g1. by rewrite lookup_alter_ne, lookup_alter_eq. }
  assert (guarded !! "traffic_volume"
          = Winsorize.on_numeric (Guards.mask_above max_volume)
              <$> fr !! "traffic_volume") as Hvol.
  { unfold guarded, g1.
    by rewrite lookup_alter_eq, lookup_alter_ne by done. }
  assert (∀ c, c ∉ ["traffic_volume"; "average_speed"] →
            guarded !! c = fr !! c) as Hother.
  { intros c Hc. unfold guarded, g1.
    rewrite !lookup_alter_ne; [done|..]; intros <-; apply Hc;
      [right; left|left]. }
  assert (∀ col, guarded !! "average_speed" = Some col →
            Guards.bounded_above (inject_Z max_speed) col) as Hb_spd.
  { intros col. rewrite Hspd.
    destruct (fr !! "average_speed") as [[s|s]|]; simpl; intros [= <-];
      simpl; [apply mask_above_bounded|done]. }
  assert (∀ col, guarded !! "traffic_volume" = Some col →
            Guards.bounded_above (inject_Z max_volume) col) as Hb_vol.
  { intros col. rewrite Hvol.
    destruct (fr !! "traffic_volume") as [[s|s]|]; simpl; intros [= <-];
      simpl; [apply mask_above_bounded|done]. }
  assert (Guards.apply_guards _df max_speed max_volume robust_view σ
          = (if robust_view
             then Winsorize.winsorize _df ["traffic_volume"; "average_speed"]
                    Winsorize.default_q
             else Winsorize.ret _df) (<[_df := guarded]> σ)) as Hrun.
  { unfold Guards.apply_guards, Winsorize.bind at 1.
    rewrite (guard_column_run σ _df fr "average_speed" max_speed Hdf)
      by (intros col; apply Hnum; right; left).
    unfold Winsorize.bind at 1.
    rewrite (guard_column_run _ _df g1 "traffic_volume" max_volume)
      by (apply lookup_insert_eq
          || (intros col; apply alter_on_numeric_numeric;
              intros col'; apply Hnum; left)).
    by rewrite insert_insert_eq. }
  rewrite Hrun. destruct robust_view.
  - rewrite (winsorize_run _ _df guarded) by
      (apply lookup_insert_eq || done).
    set (df' := fresh (dom (<[_df := guarded]> σ))).
    assert (<[_df := guarded]> σ !! df' = None) as Hfresh
      by apply not_elem_of_dom, is_fresh.
    assert (df' ≠ _df) as Hdf'.
    { intros Heq. rewrite Heq in Hfresh.
      by rewrite lookup_insert_eq in Hfresh. }
    eexists df', _, guarded, _. split; [reflexivity|].
    split; [by rewrite lookup_insert_ne, lookup_insert_eq|].
    split; [by rewrite lookup_insert_eq|].
    split; [intros a Ha Ha'; by rewrite !lookup_insert_ne|].
    split; [by rewrite lookup_insert_ne in Hfresh|].
    split; [done|]. split; [done|]. split; [|split].
    + intros c Hc. split; [by apply Hother|].
      rewrite foldl_alter_lookup, listed_0, Hother by done.
      destruct (fr !! c) as [col|]; simpl; [|done].
      by rewrite on_numeric_id.
    + intros col. rewrite foldl_alter_lookup.
      destruct (guarded !! "average_speed") as [[s|s]|] eqn:Hg; simpl;
        intros [= <-]; simpl; [|done].
      apply (iter_clip_bounded _ 1). by apply (Hb_spd (Winsorize.NumCol s)).
    + intros col. rewrite foldl_alter_lookup.
      destruct (guarded !! "traffic_volume") as [[s|s]|] eqn:Hg; simpl;
        intros [= <-]; simpl; [|done].
      apply (iter_clip_bounded _ 1). by apply (Hb_vol (Winsorize.NumCol s)).
  - eexists _df, _, guarded, guarded. split; [reflexivity|].
    split; [apply lookup_insert_eq|]. split; [apply lookup_insert_eq|].
    split; [intros a Ha _; by rewrite lookup_insert_ne|].
    split; [done|]. split; [done|]. split; [done|].
    split; [|done]. intros c Hc. split; by apply Hother.
Qed.

Lemma apply_guards_effect_witness :
  ∃ df' σ' guarded fr',
    Guards.apply_guards 1%positive 160 10000 true
      {[ 1%positive :=
           {[ "average_speed" := Winsorize.NumCol [Some 200; Some 50]%Q;
              "traffic_volume" := Winsorize.NumCol [Some 5; None]%Q ]} ]}
    = inr (df', σ')
    ∧ σ' !! 1%positive = Some guarded
    ∧ σ' !! df' = Some fr'.
Proof.
  destruct (apply_guards_effect
    {[ 1%positive :=
         {[ "average_speed" := Winsorize.NumCol [Some 200; Some 50]%Q;
            "traffic_volume" := Winsorize.NumCol [Some 5; None]%Q ]} ]}
    1%positive
    {[ "average_speed" := Winsorize.NumCol [Some 200; Some 50]%Q;
       "traffic_volume" := Winsorize.NumCol [Some 5; None]%Q ]}
    160 10000 true)
    as (df' & σ' & guarded & fr' & Hrun & Hin & Hout & _).
  - reflexivity.
  - intros c col Hc.
    repeat (apply elem_of_cons in Hc as [->|Hc]);
      [vm_compute; by intros [= <-]..|by apply elem_of_nil in Hc].
  - exists df', σ', guarded, fr'.
    split; [exact Hrun|]. split; [exact Hin|exact Hout].
Defined.

(** ** Winsorizing: edge cases and errors *)

Section WinsorizeErrors.
Import Winsorize.
Implicit Types (σ : gmap positive (gmap string column))
  (fr : gmap string column) (q : Q * Q).

Lemma winsorize_column_absent σ (df : positive) fr q (c : string) :
  σ !! df = Some fr → fr !! c = None →
  winsorize_column df q c σ = inr (tt, σ).
Proof.
  intros Hdf Hc. unfold winsorize_column, bind, has_column.
  rewrite Hdf, Hc. by rewrite bool_decide_false by (by intros [??]).
Qed.

Lemma winsorize_column_ValueError σ (df : positive) fr q (c : string) :
  σ !! df = Some fr → is_Some (fr !! c) →
  valid_q q.1 && valid_q q.2 = false →
  winsorize_column df q c σ = inl ValueError.
Proof.
  intros Hdf [col Hc] Hq. unfold winsorize_column, bind, has_column, getitem.
  rewrite Hdf, Hc. rewrite bool_decide_true by eauto. rewrite Hdf, Hc.
  unfold quantile. by rewrite Hq.
Qed.

Lemma winsorize_column_TypeError σ (df : positive) fr q (c : string)
    (s : list string) :
  σ !! df = Some fr → fr !! c = Some (ObjCol s) →
  valid_q q.1 && valid_q q.2 = true →
  winsorize_column df q c σ = inl TypeError.
Proof.
  intros Hdf Hc Hq. unfold winsorize_column, bind, has_column, getitem.
  rewrite Hdf, Hc. rewrite bool_decide_true by eauto. rewrite Hdf, Hc.
  unfold quantile. by rewrite Hq.
Qed.

Lemma for_each_absent σ (df : positive) fr q (cols : list string) :
  σ !! df = Some fr → (∀ c, c ∈ cols → fr !! c = None) →
  for_each cols (winsorize_column df q) σ = inr (tt, σ).
Proof.
  intros Hdf. induction cols as [|c cols IH]; intros Habs; simpl; [done|].
  unfold bind. rewrite (winsorize_column_absent σ df fr) by
    (done || (apply Habs; left)).
  apply IH. intros c' Hc'. apply Habs. by right.
Qed.

Lemma for_each_ValueError σ (df : positive) fr q (cols : list string) :
  σ !! df = Some fr →
  valid_q q.1 && valid_q q.2 = false →
  (∃ c, c ∈ cols ∧ is_Some (fr !! c)) →
  for_each cols (winsorize_column df q) σ = inl ValueError.
Proof.
  intros Hdf Hq. induction cols as [|c cols IH]; intros (c' & Hc' & Hsome).
  { by apply elem_of_nil in Hc'. }
  simpl. unfold bind. destruct (fr !! c) as [col|] eqn:Hc.
  - by rewrite (winsorize_column_ValueError σ df fr) by eauto.
  - rewrite (winsorize_column_absent σ df fr) by done.
    apply IH. exists c'. split; [|done].
    apply elem_of_cons in Hc' as [->|?]; [|done].
    rewrite Hc in Hsome. by destruct Hsome.
Qed.

Lemma for_each_TypeError σ (df : positive) fr q (cols : list string) :
  σ !! df = Some fr →
  valid_q q.1 && valid_q q.2 = true →
  (∃ c s, c ∈ cols ∧ fr !! c = Some (ObjCol s)) →
  for_each cols (winsorize_column df q) σ = inl TypeError.
Proof.
  intros Hdf Hq. revert σ fr Hdf.
  induction cols as [|c cols IH]; intros σ fr Hdf (c' & s & Hc' & Hobj).
  { by apply elem_of_nil in Hc'. }
  simpl. unfold bind. destruct (fr !! c) as [[t|t]|] eqn:Hc.
  - rewrite (winsorize_column_run σ df fr q c Hdf Hq)
      by (rewrite Hc; by intros ? [= <-]).
    apply (IH _ (alter (on_numeric (clip_to_quantiles q)) c fr)).
    + apply lookup_insert_eq.
    + exists c', s. apply elem_of_cons in Hc' as [->|?]; [congruence|].
      split; [done|]. destruct (decide (c = c')) as [<-|Hne]; [congruence|].
      by rewrite lookup_alter_ne.
  - by rewrite (winsorize_column_TypeError σ df fr q c t).
  - rewrite (winsorize_column_absent σ df fr) by done.
    apply (IH σ fr Hdf). exists c', s.
    apply elem_of_cons in Hc' as [->|?]; [congruence|done].
Qed.

End WinsorizeErrors.

(** X19: edge cases of winsorizing a frame.  When none of the listed
    columns is in the frame (an empty list included) the result is an
    exact copy in a new object, whatever the quantile levels.  When a
    listed column is in the frame and a quantile level lies outside
    [0, 1], a ValueError is raised; with levels in range, a listed text
    column raises a TypeError. *)
Theorem winsorize_edge_cases
    (σ : gmap positive (gmap string Winsorize.column)) (frame : positive)
    (fr : gmap string Winsorize.column) (cols : list string) (q : Q * Q) :
  σ !! frame = Some fr →
  ((∀ c, c ∈ cols → fr !! c = None) →
   Winsorize.winsorize frame cols q σ
   = inr (fresh (dom σ), <[fresh (dom σ) := fr]> σ)
   ∧ σ !! fresh (dom σ) = None)
  ∧ (Winsorize.valid_q q.1 && Winsorize.valid_q q.2 = false →
     (∃ c, c ∈ cols ∧ is_Some (fr !! c)) →
     Winsorize.winsorize frame cols q σ = inl Winsorize.ValueError)
  ∧ (Winsorize.valid_q q.1 && Winsorize.valid_q q.2 = true →
     (∃ c s, c ∈ cols ∧ fr !! c = Some (Winsorize.ObjCol s)) →
     Winsorize.winsorize frame cols q σ = inl Winsorize.TypeError).
Proof.
  intros Hframe.
  assert (<[fresh (dom σ) := fr]> σ !! fresh (dom σ) = Some fr) as Hcopy
    by apply lookup_insert_eq.
  assert (∀ out,
    Winsorize.for_each cols
      (Winsorize.winsorize_column (fresh (dom σ)) q)
      (<[fresh (dom σ) := fr]> σ) = out →
    Winsorize.winsorize frame cols q σ
    = match out with
      | inl e => inl e
      | inr (_, σ') => inr (fresh (dom σ), σ')
      end) as Hrun.
  { intros out <-.
    unfold Winsorize.winsorize, Winsorize.bind at 1, Winsorize.copy.
    by rewrite Hframe. }
  split; [|split].
  - intros Habs. rewrite (Hrun _ (for_each_absent _ _ fr q cols Hcopy Habs)).
    split; [done|]. apply not_elem_of_dom, is_fresh.
  - intros Hq Hsome.
    by rewrite (Hrun _ (for_each_ValueError _ _ fr q cols Hcopy Hq Hsome)).
  - intros Hq Hobj.
    by rewrite (Hrun _ (for_each_TypeError _ _ fr q cols Hcopy Hq Hobj)).
Qed.

Lemma winsorize_edge_cases_witness :
  Winsorize.winsorize 1%positive ["r"] (1 # 4, 3 # 4)%Q
    {[ 1%positive := {[ "r" := Winsorize.ObjCol ["x"] ]} ]}
  = inl Winsorize.TypeError.
Proof.
  refine (proj2 (proj2 (winsorize_edge_cases
    {[ 1%positive := {[ "r" := Winsorize.ObjCol ["x"] ]} ]} 1%positive
    {[ "r" := Winsorize.ObjCol ["x"] ]} ["r"] (1 # 4, 3 # 4)%Q _)) _ _).
  - reflexivity.
  - reflexivity.
  - exists "r", ["x"]. split; [left|reflexivity].
Defined.

(** ** When the decomposition input has no gap *)

Lemma mean_is_Some (s : list (option Q)) (v : Q) :
  Some v ∈ s → is_Some (Resampler.mean s).
Proof.
  intros Hv%dropna_elem_of. unfold Resampler.mean.
  destruct (dropna s); [by apply elem_of_nil in Hv|by eexists].
Qed.

Lemma mean_is_None (s : list (option Q)) :
  (∀ c, c ∈ s → c = None) → Resampler.mean s = None.
Proof.
  intros Hnone. unfold Resampler.mean.
  destruct (dropna s) as [|v vs] eqn:Hs; [done|].
  assert (v ∈ dropna s) as Hv%dropna_elem_of by (rewrite Hs; left).
  by specialize (Hnone _ Hv).
Qed.

Lemma ts_hourly_head (df_my : list Resampler.Row) :
  df_my ≠ [] →
  ∃ lo rest,
    (∀ y, y ∈ df_my →
       lo ≤ Resampler.bucket Resampler.H (Resampler.datetime y))
    ∧ (∃ x, x ∈ df_my
            ∧ Resampler.bucket Resampler.H (Resampler.datetime x) = lo)
    ∧ (Resampler.resample Resampler.datetime
         (λ rows, Resampler.mean (Resampler.traffic_volume <$> rows))
         Resampler.H df_my).*2
      = Resampler.mean
          (Resampler.traffic_volume
             <$> filter (Resampler.in_bucket Resampler.datetime Resampler.H lo)
                   (Resampler.sort_index Resampler.datetime df_my))
        :: rest.
Proof.
  intros Hdf.
  destruct (resample_span Resampler.datetime
              (λ rows, Resampler.mean (Resampler.traffic_volume <$> rows))
              Resampler.H df_my Hdf)
    as (lo & hi & -> & Hle & Hlo & _ & Hall).
  exists lo. rewrite seqZ_cons by lia. rewrite !fmap_cons. simpl.
  eexists. split; [|split; [done|reflexivity]].
  intros y Hy. by apply Hall.
Qed.

(** X20: forward filling closes every gap of the decomposition input
    except a leading one.  When a record of the earliest hourly bucket has
    a volume, the input series has a number at every position; when the
    records of the earliest bucket all miss their volume (a guard may have
    removed it), the series starts with a missing value. *)
Theorem ts_hourly_gap_free (df_my : list Resampler.Row) :
  (∀ x v, x ∈ df_my → Resampler.traffic_volume x = Some v →
     (∀ y, y ∈ df_my →
        Resampler.bucket Resampler.H (Resampler.datetime x)
        ≤ Resampler.bucket Resampler.H (Resampler.datetime y)) →
     ∀ j, (j < length (Resampler.ts_hourly df_my))%nat →
       ∃ u, Resampler.ts_hourly df_my !! j = Some (Some u))
  ∧ (df_my ≠ [] →
     (∀ x, x ∈ df_my →
        (∀ y, y ∈ df_my →
           Resampler.bucket Resampler.H (Resampler.datetime x)
           ≤ Resampler.bucket Resampler.H (Resampler.datetime y)) →
        Resampler.traffic_volume x = None) →
     Resampler.ts_hourly df_my !! 0%nat = Some None).
Proof.
  split.
  - intros x v Hx Hv Hmin j Hj.
    assert (df_my ≠ []) as Hdf by (intros ->; by apply elem_of_nil in Hx).
    destruct (ts_hourly_head df_my Hdf)
      as (lo & rest & Hlo & (x0 & Hx0 & Hx0lo) & Hgrid).
    assert (Resampler.bucket Resampler.H (Resampler.datetime x) = lo) as Hxlo.
    { pose proof (Hlo x Hx). pose proof (Hmin x0 Hx0). lia. }
    unfold Resampler.ts_hourly, Resampler.ffill in *. rewrite Hgrid in *.
    assert (is_Some (Resampler.mean
              (Resampler.traffic_volume
                 <$> filter (Resampler.in_bucket Resampler.datetime
                               Resampler.H lo)
                       (Resampler.sort_index Resampler.datetime df_my))))
      as [m Hm].
    { apply (mean_is_Some _ v). rewrite <-Hv.
      apply list_elem_of_fmap_2, list_elem_of_filter.
      split; [done|]. by apply stable_sort_elem_of. }
    rewrite Hm in *. simpl in *. destruct j as [|j]; simpl; [eauto|].
    apply ffill_from_Some_prev. rewrite ffill_from_length in Hj. lia.
  - intros Hdf Hnone.
    destruct (ts_hourly_head df_my Hdf)
      as (lo & rest & Hlo & (x0 & Hx0 & Hx0lo) & Hgrid).
    unfold Resampler.ts_hourly, Resampler.ffill. rewrite Hgrid.
    rewrite mean_is_None; [done|].
    intros c (y & -> & [Hy Hin]%list_elem_of_filter)%list_elem_of_fmap.
    apply stable_sort_elem_of in Hin. apply (Hnone y Hin).
    intros z Hz. rewrite Hy. by apply Hlo.
Qed.

Lemma ts_hourly_gap_free_witness :
  ∃ u, Resampler.ts_hourly
         [Resampler.mkRow (hours 3) None None None;
          Resampler.mkRow (hours 0) (Some 7%Q) None None] !! 2%nat
       = Some (Some u).
Proof.
  apply (proj1 (ts_hourly_gap_free
           [Resampler.mkRow (hours 3) None None None;
            Resampler.mkRow (hours 0) (Some 7%Q) None None])
           (Resampler.mkRow (hours 0) (Some 7%Q) None None) 7%Q).
  - right; left.
  - reflexivity.
  - intros y Hy. repeat (apply elem_of_cons in Hy as [->|Hy]);
      [vm_compute; discriminate..|by apply elem_of_nil in Hy].
  - vm_compute. lia.
Defined.

Lemma base_incidents_total_witness :
  ∃ v, Resampler.base_incidents (Resampler.mkBase None None (Some 0%Q))
       = Some v.
Proof.
  apply (proj1 (base_incidents_total Resampler.H
           [Resampler.mkRow (hours 0) (Some 10%Q) (Some 50%Q) (Some 1%Q);
            Resampler.mkRow (hours 2) (Some 30%Q) (Some 40%Q) (Some 2%Q)])
           (hours 1)).
  vm_compute. right. left.
Defined.

(** ** Winsorizing returns a clipped copy *)

Section ClippedCopy.
Import Winsorize.




End ClippedCopy.



